(** * EquivalenceClasses: a disjoint-set forest with directed-edge bookkeeping

    Shallow embedding of [src/models/equivalence_classes.py].

    The Python object is a record of five mutable fields; every method
    is a state transformer that may raise.  An exception leaves the
    (possibly already mutated) object behind, so a computation returns
    the final state together with its outcome. *)

From stdpp Require Import gmap strings list fin_maps.

Set Default Proof Using "Type".

(** ** Exceptions and outcomes *)

(** The exceptions the module can raise: the explicit [ValueError]s
    (with their message), the [KeyError] of an unchecked dictionary
    lookup and the [IndexError] of an out-of-range list subscript. *)
Inductive exn : Type :=
  | ValueError (msg : string)
  | KeyError
  | IndexError.

(** The class of an exception, as an [except] clause sees it. *)
Inductive exn_kind : Type := KValueError | KKeyError | KIndexError.

Definition kind_of (e : exn) : exn_kind :=
  match e with
  | ValueError _ => KValueError
  | KeyError => KKeyError
  | IndexError => KIndexError
  end.

#[global] Instance exn_eq_dec : EqDecision exn.
Proof. solve_decision. Defined.
#[global] Instance exn_kind_eq_dec : EqDecision exn_kind.
Proof. solve_decision. Defined.

(** [OutOfFuel] is the model's account of a [while] loop that has not
    finished within the iterations it was given. *)
Inductive outcome (A : Type) : Type :=
  | Ret (a : A)
  | Raise (e : exn)
  | OutOfFuel.
Arguments Ret {A} a.
Arguments Raise {A} e.
Arguments OutOfFuel {A}.

(** ** The parent forest *)

(** [path p i r d]: following the parent links of [p] from slot [i]
    reaches, after exactly [d] links, the slot [r] whose parent is
    itself; no slot before [r] on the way is its own parent. *)
Inductive path (p : list nat) : nat → nat → nat → Prop :=
  | path_root r :
      p !! r = Some r → path p r r 0
  | path_step i j r d :
      p !! i = Some j → i ≠ j → path p j r d → path p i r (S d).

Definition root_of (p : list nat) (i r : nat) : Prop := ∃ d, path p i r d.

(** Every slot reaches a root. *)
Definition forest (p : list nat) : Prop :=
  ∀ i, (i < length p) → ∃ r, root_of p i r.

(** The [k]-th ancestor of a slot: [k] parent links followed. *)
Fixpoint ancestor (p : list nat) (k : nat) (i : nat) : option nat :=
  match k with
  | O => Some i
  | S k' => p !! i ≫= ancestor p k'
  end.

Definition grandparent (p : list nat) (i : nat) : option nat :=
  ancestor p 2 i.

(** A cycle through [i]: some positive number of links leads back to
    [i] although [i] is not a root. *)
Definition on_cycle (p : list nat) (i : nat) : Prop :=
  p !! i ≠ Some i ∧ ∃ k, (0 < k) ∧ ancestor p k i = Some i.

(** [l] lists, without repetition, the slots whose root is [r]. *)
Definition class_members (p : list nat) (r : nat) (l : list nat) : Prop :=
  NoDup l ∧ ∀ i, i ∈ l ↔ root_of p i r.

(** Number of root slots: the slots [i] with [p[i] == i]. *)
Definition num_roots (p : list nat) : nat :=
  length (filter (λ i, p !! i = Some i) (seq 0 (length p))).

(** The slots the loop of [_find_root] stands on when started at [c]:
    [c] itself and, as long as the current slot is not a root, the
    slot two links up. *)
Inductive visited (p : list nat) : nat → nat → Prop :=
  | visited_here c : visited p c c
  | visited_skip c q g x :
      p !! c = Some q → c ≠ q → p !! q = Some g →
      visited p g x → visited p c x.

(** Path halving from [c]: [p'] is [p] with the parent of every visited
    slot replaced by that slot's grandparent in [p], and nothing else
    changed. *)
Definition halved (p : list nat) (c : nat) (p' : list nat) : Prop :=
  ∀ x, (visited p c x → p' !! x = grandparent p x) ∧
       (¬ visited p c x → p' !! x = p !! x).

Section EquivalenceClasses.

Context {K : Type} `{!EqDecision K, !Countable K}.

(** ** Data model *)

(** Modelled from the spec: the [Node] class of [models/node.py] is
    imported by the module but is not part of the sources.  It carries
    the identifier it was built from and two mutable sets of nodes,
    [destinations] (outgoing) and [sources] (incoming).  A node object
    is created once, by [add], and stored in [_nodes]; a reference to
    it is its index in that list, so the sets hold indices. *)
Record Node : Type := mkNode {
  identifier : K;
  destinations : gset nat;
  sources : gset nat;
}.

(** Modelled from the spec: [Node(identifier)] starts with both
    adjacency sets empty. *)
Definition new_Node (k : K) : Node := mkNode k ∅ ∅.

Definition add_destination (j : nat) (nd : Node) : Node :=
  mkNode (identifier nd) ({[ j ]} ∪ destinations nd) (sources nd).

Definition add_source (i : nat) (nd : Node) : Node :=
  mkNode (identifier nd) (destinations nd) ({[ i ]} ∪ sources nd).

Record EquivalenceClasses : Type := mkEC {
  _roots : list nat;
  _nodes : list Node;
  _identifiers : gmap K nat;
  _sizes : list nat;
  _count : Z;
}.

(** [__init__] *)
Definition init : EquivalenceClasses := mkEC [] [] ∅ [] 0%Z.

Definition with_roots (p : list nat) (s : EquivalenceClasses) :=
  mkEC p (_nodes s) (_identifiers s) (_sizes s) (_count s).
Definition with_sizes (z : list nat) (s : EquivalenceClasses) :=
  mkEC (_roots s) (_nodes s) (_identifiers s) z (_count s).
Definition with_nodes (n : list Node) (s : EquivalenceClasses) :=
  mkEC (_roots s) n (_identifiers s) (_sizes s) (_count s).
Definition with_count (c : Z) (s : EquivalenceClasses) :=
  mkEC (_roots s) (_nodes s) (_identifiers s) (_sizes s) c.

(** ** The method monad: state that survives an exception *)

Definition M (A : Type) : Type :=
  EquivalenceClasses → EquivalenceClasses * outcome A.

Definition ret {A} (a : A) : M A := λ s, (s, Ret a).
Definition raise {A} (e : exn) : M A := λ s, (s, Raise e).
Definition bind {A B} (m : M A) (f : A → M B) : M B := λ s,
  match m s with
  | (s', Ret a) => f a s'
  | (s', Raise e) => (s', Raise e)
  | (s', OutOfFuel) => (s', OutOfFuel)
  end.

Notation "'let*' x ':=' m 'in' k" := (bind m (λ x, k))
  (at level 10, x name, m at level 100, k at level 200).
Notation "m '>>' k" := (bind m (λ _, k))
  (at level 100, k at level 200, right associativity).

(** Subscripts.  Reading or assigning [l[i]] outside the list raises
    [IndexError]; [d[k]] on a missing key raises [KeyError]. *)
Definition roots_get (i : nat) : M nat := λ s,
  match _roots s !! i with
  | Some v => (s, Ret v)
  | None => (s, Raise IndexError)
  end.

Definition roots_set (i v : nat) : M unit := λ s,
  if decide (i < length (_roots s))
  then (with_roots (<[i := v]> (_roots s)) s, Ret tt)
  else (s, Raise IndexError).

Definition sizes_get (i : nat) : M nat := λ s,
  match _sizes s !! i with
  | Some v => (s, Ret v)
  | None => (s, Raise IndexError)
  end.

Definition sizes_set (i v : nat) : M unit := λ s,
  if decide (i < length (_sizes s))
  then (with_sizes (<[i := v]> (_sizes s)) s, Ret tt)
  else (s, Raise IndexError).

Definition identifiers_get (k : K) : M nat := λ s,
  match _identifiers s !! k with
  | Some i => (s, Ret i)
  | None => (s, Raise KeyError)
  end.

Definition nodes_get (i : nat) : M nat := λ s,
  match _nodes s !! i with
  | Some _ => (s, Ret i)
  | None => (s, Raise IndexError)
  end.

(** In-place update of the node object behind reference [i]. *)
Definition node_update (f : Node → Node) (i : nat) : M unit := λ s,
  match _nodes s !! i with
  | Some _ => (with_nodes (alter f i (_nodes s)) s, Ret tt)
  | None => (s, Raise IndexError)
  end.

(** [self._count += d] *)
Definition count_add (d : Z) : M unit := λ s,
  (with_count (_count s + d)%Z s, Ret tt).

(** ** Methods *)

(** [__contains__] *)
Definition contains (k : K) (s : EquivalenceClasses) : bool :=
  bool_decide (is_Some (_identifiers s !! k)).

(** [count] *)
Definition count (s : EquivalenceClasses) : Z := _count s.

(** The [while] loop of [_find_root], one iteration per unit of fuel.
    Every subscript of the source is performed, in source order. *)
Fixpoint find_root_loop (fuel : nat) (current_item_idx : nat) : M nat :=
  match fuel with
  | O => λ s, (s, OutOfFuel)
  | S fuel' =>
      let* parent := roots_get current_item_idx in
      if decide (current_item_idx ≠ parent) then
        let* inner := roots_get current_item_idx in
        let* grandparent := roots_get inner in
        roots_set current_item_idx grandparent >>
        let* next := roots_get current_item_idx in
        find_root_loop fuel' next
      else ret current_item_idx
  end.

(** [_find_root]: the loop is given as many iterations as there are
    slots.  [find_root_spec] shows that on a forest, hence on every
    reachable object, this is enough, and [find_root_loop_fuel_mono]
    that more iterations change nothing once a result is reached. *)
Definition _find_root (item_idx : nat) : M nat := λ s,
  find_root_loop (length (_roots s)) item_idx s.

Definition add (k : K) : M unit := λ s,
  if contains k s
  then (s, Raise (ValueError "Item already exists within EquivalenceClasses"))
  else
    let new_item_index := length (_roots s) in
    count_add 1%Z
      (mkEC (_roots s ++ [new_item_index])
            (_nodes s ++ [new_Node k])
            (<[k := new_item_index]> (_identifiers s))
            (_sizes s ++ [1])
            (_count s)).

Definition find (k : K) : M nat :=
  let* item_idx := identifiers_get k in
  _find_root item_idx.

Definition union (identifier_one identifier_two : K) : M unit := λ s,
  if negb (contains identifier_one s) || negb (contains identifier_two s)
  then (s, Raise (ValueError
         "Both union identifiers must already exist within an equivalence class"))
  else
    (let* item_one_idx := identifiers_get identifier_one in
     let* item_two_idx := identifiers_get identifier_two in
     let* root_one := _find_root item_one_idx in
     let* root_two := _find_root item_two_idx in
     if decide (root_one = root_two) then ret tt
     else
       let* size_one := sizes_get root_one in
       let* size_two := sizes_get root_two in
       (if decide (size_one < size_two) then
          roots_set root_one root_two >>
          let* old := sizes_get root_two in
          let* add_size := sizes_get root_one in
          sizes_set root_two (old + add_size)
        else
          roots_set root_two root_one >>
          let* old := sizes_get root_one in
          let* add_size := sizes_get root_two in
          sizes_set root_one (old + add_size)) >>
       count_add (-1)%Z) s.

Definition get_node (k : K) : M nat := λ s,
  if negb (contains k s)
  then (s, Raise (ValueError "Identifier not tracked by equivalence classes"))
  else (let* item_idx := identifiers_get k in nodes_get item_idx) s.

Definition connect (source destination : K) : M unit :=
  union source destination >>
  let* source_node := get_node source in
  let* destination_node := get_node destination in
  node_update (add_destination destination_node) source_node >>
  node_update (add_source source_node) destination_node.

(** The Python expression [self.find(a) == self.find(b)]: both calls
    run, left to right, on the same object. *)
Definition find_eq (a b : K) : M bool :=
  let* class_a := find a in
  let* class_b := find b in
  ret (bool_decide (class_a = class_b)).

(** The object [union] leaves when it hangs the root [child] under the
    root [parent], whose size becomes [z]; [p] is the parent array after
    the two root resolutions. *)
Definition linked (s : EquivalenceClasses) (p : list nat)
    (child parent z : nat) : EquivalenceClasses :=
  mkEC (<[child := parent]> p) (_nodes s) (_identifiers s)
       (<[parent := z]> (_sizes s)) (_count s - 1)%Z.

(** The node store after [connect] has recorded the edge from the node
    at [i] to the node at [j]. *)
Definition record_edge (i j : nat) (nodes : list Node) : list Node :=
  alter (add_source i) j (alter (add_destination j) i nodes).

(** ** Reachable states *)

(** A call of the public interface. *)
Inductive call : Type :=
  | Add (k : K)
  | Find (k : K)
  | Union (a b : K)
  | Connect (a b : K)
  | GetNode (k : K)
  | Count
  | Contains (k : K).

(** The object after a call, whether the call returned or raised. *)
Definition exec (c : call) (s : EquivalenceClasses) : EquivalenceClasses :=
  match c with
  | Add k => fst (add k s)
  | Find k => fst (find k s)
  | Union a b => fst (union a b s)
  | Connect a b => fst (connect a b s)
  | GetNode k => fst (get_node k s)
  | Count => s
  | Contains k => s
  end.

Definition run (tr : list call) : EquivalenceClasses :=
  foldl (λ s c, exec c s) init tr.

Definition reachable (s : EquivalenceClasses) : Prop := ∃ tr, s = run tr.

(** The calls that can merge classes. *)
Definition merges (c : call) : bool :=
  match c with
  | Union _ _ | Connect _ _ => true
  | _ => false
  end.

(** The slot of an identifier, its node and the edges recorded there. *)
Definition slot_of (s : EquivalenceClasses) (k : K) : option nat :=
  _identifiers s !! k.

Definition has_edge (s : EquivalenceClasses) (i j : nat) : Prop :=
  ∃ nd, _nodes s !! i = Some nd ∧ j ∈ destinations nd.

Definition has_back_edge (s : EquivalenceClasses) (j i : nat) : Prop :=
  ∃ nd, _nodes s !! j = Some nd ∧ i ∈ sources nd.

(** Whether a call raised, and the class of what it raised. *)
Definition raised_kind {A} (res : EquivalenceClasses * outcome A)
    : option exn_kind :=
  match snd res with
  | Raise e => Some (kind_of e)
  | _ => None
  end.

Definition call_raised (c : call) (s : EquivalenceClasses) : bool :=
  match c with
  | Add k => bool_decide (is_Some (raised_kind (add k s)))
  | Find k => bool_decide (is_Some (raised_kind (find k s)))
  | Union a b => bool_decide (is_Some (raised_kind (union a b s)))
  | Connect a b => bool_decide (is_Some (raised_kind (connect a b s)))
  | GetNode k => bool_decide (is_Some (raised_kind (get_node k s)))
  | Count => false
  | Contains k => false
  end.

(** ** The representation invariant *)

Record wf (s : EquivalenceClasses) : Prop := mkWf {
  wf_sizes_len : length (_sizes s) = length (_roots s);
  wf_nodes_len : length (_nodes s) = length (_roots s);
  wf_ids_node : ∀ k i, _identifiers s !! k = Some i →
      ∃ nd, _nodes s !! i = Some nd ∧ identifier nd = k;
  wf_node_ids : ∀ i nd, _nodes s !! i = Some nd →
      _identifiers s !! identifier nd = Some i;
  wf_forest : forest (_roots s);
  wf_count : _count s = Z.of_nat (num_roots (_roots s));
  wf_sizes : ∀ r, _roots s !! r = Some r →
      ∃ l, class_members (_roots s) r l ∧ _sizes s !! r = Some (length l);
  wf_edge_range : ∀ i j, has_edge s i j → (j < length (_nodes s));
  wf_edge_sym : ∀ i j, has_edge s i j ↔ has_back_edge s j i;
}.

(** * Facts about parent forests *)

Section Forest.

Implicit Types (p : list nat) (i j r c g d : nat).

Lemma path_lookup p i r d : path p i r d → is_Some (p !! i).
Proof. destruct 1; eauto. Qed.

Lemma path_lt p i r d : path p i r d → i < length p.
Proof. intros Hp. apply path_lookup in Hp. by apply lookup_lt_is_Some. Qed.

Lemma path_end_root p i r d : path p i r d → p !! r = Some r.
Proof. induction 1; auto. Qed.

Lemma path_end p i r d : path p i r d → path p r r 0.
Proof. intros Hp. constructor. eapply path_end_root, Hp. Qed.

(** Parent links are a function, so the root and the distance to it
    are determined by the start slot. *)
Lemma path_det p i r d r' d' :
  path p i r d → path p i r' d' → r = r' ∧ d = d'.
Proof.
  intros Hp. revert r' d'.
  induction Hp as [r Hr | i j r d Hij Hne Hp IH]; intros r' d' Hp'.
  - inversion Hp'; subst; [done | congruence].
  - inversion Hp' as [? Hr | ? j' ? d0 Hij' _ Hp0]; subst; [congruence |].
    assert (j' = j) as -> by congruence.
    destruct (IH _ _ Hp0) as [-> ->]. done.
Qed.

Lemma root_of_det p i r r' : root_of p i r → root_of p i r' → r = r'.
Proof. intros [d Hd] [d' Hd']. by destruct (path_det _ _ _ _ _ _ Hd Hd'). Qed.

Lemma root_of_root p r : p !! r = Some r → root_of p r r.
Proof. intros Hr. exists 0. by constructor. Qed.

Lemma root_of_lt p i r : root_of p i r → i < length p ∧ r < length p.
Proof.
  intros [d Hd]. split; [by eapply path_lt |].
  apply path_end in Hd. by eapply path_lt.
Qed.

Lemma root_of_is_root p i r : root_of p i r → p !! r = Some r.
Proof. intros [d Hd]. by eapply path_end_root. Qed.

(** One link up: the parent is strictly closer to the root. *)
Lemma path_parent p i j r d :
  path p i r d → p !! i = Some j → ∃ d', path p j r d' ∧ d' ≤ d ∧ (i ≠ j → S d' = d).
Proof.
  intros Hp Hij. inversion Hp as [? Hr | ? j' ? d0 Hij' Hne Hp0]; subst.
  - assert (j = r) as -> by congruence. exists 0. split; [done | split; [lia | done]].
  - assert (j' = j) as -> by congruence. exists d0. split; [done | split; [lia | done]].
Qed.

(** The slots on a path are pairwise distinct, hence a path is shorter
    than the array. *)
Lemma path_slots p i r d :
  path p i r d →
  ∃ l : list nat, length l = S d ∧ NoDup l ∧
    ∀ x, x ∈ l → ∃ d', d' ≤ d ∧ path p x r d'.
Proof.
  induction 1 as [r Hr | i j r d Hij Hne Hp (l & Hlen & Hnd & Hl)].
  - exists [r]. split; [done | split; [apply NoDup_singleton |]].
    intros x ->%list_elem_of_singleton. exists 0. split; [lia | by constructor].
  - exists (i :: l). split; [simpl; lia | split].
    + apply NoDup_cons. split; [| done]. intros Hin.
      destruct (Hl _ Hin) as (d' & Hle & Hp').
      assert (path p i r (S d)) as Hpi by (econstructor; eauto).
      destruct (path_det _ _ _ _ _ _ Hp' Hpi) as [_ ->]. lia.
    + intros x [-> | Hin]%elem_of_cons.
      * exists (S d). split; [lia | econstructor; eauto].
      * destruct (Hl _ Hin) as (d' & Hle & Hp'). exists d'. split; [lia | done].
Qed.

Lemma path_bound p i r d : path p i r d → d < length p.
Proof.
  intros Hp. destruct (path_slots _ _ _ _ Hp) as (l & Hlen & Hnd & Hl).
  assert (l ⊆+ seq 0 (length p)) as Hsub.
  { apply NoDup_submseteq; [done |]. intros x Hx.
    destruct (Hl _ Hx) as (d' & _ & Hp'). apply path_lt in Hp'.
    apply elem_of_seq. lia. }
  apply submseteq_length in Hsub. rewrite length_seq in Hsub. lia.
Qed.

End Forest.

Section Halving.

Implicit Types (p : list nat) (i j r c g d : nat).

(** Re-pointing a slot at a slot of the same tree that is closer to
    the root keeps every slot's root and lengthens no path. *)
Lemma path_shortcut p c g r dc dg :
  path p c r dc → path p g r dg → dg < dc →
  ∀ d j r', path p j r' d → ∃ d', d' ≤ d ∧ path (<[c := g]> p) j r' d'.
Proof.
  intros Hc Hg Hlt d.
  induction (lt_wf d) as [d _ IH]. intros j r' Hj.
  destruct (decide (j = c)) as [-> | Hjc].
  - destruct (path_det _ _ _ _ _ _ Hj Hc) as [-> ->].
    destruct (IH dg Hlt g r Hg) as (dg' & Hle & Hg').
    exists (S dg'). split; [lia |].
    apply path_step with g; [| | done].
    + apply list_lookup_insert_eq. by eapply path_lt.
    + intros ->. destruct (path_det _ _ _ _ _ _ Hc Hg). lia.
  - inversion Hj as [? Hr | ? k ? d0 Hjk Hne Hk]; subst.
    + exists 0. split; [lia |]. constructor.
      by rewrite list_lookup_insert_ne.
    + destruct (IH d0 (Nat.lt_succ_diag_r _) k r' Hk) as (d0' & Hle & Hk').
      exists (S d0'). split; [lia |].
      apply path_step with k; [| done | done].
      by rewrite list_lookup_insert_ne.
Qed.

Lemma forest_shortcut p c g r dc dg :
  path p c r dc → path p g r dg → dg < dc →
  forest p → forest (<[c := g]> p).
Proof.
  intros Hc Hg Hlt Hf i Hi. rewrite length_insert in Hi.
  destruct (Hf i Hi) as (r' & d & Hd).
  destruct (path_shortcut _ _ _ _ _ _ Hc Hg Hlt _ _ _ Hd) as (d' & _ & Hd').
  exists r', d'. done.
Qed.

Lemma root_of_shortcut p c g r dc dg :
  path p c r dc → path p g r dg → dg < dc → forest p →
  ∀ j r', root_of (<[c := g]> p) j r' ↔ root_of p j r'.
Proof.
  intros Hc Hg Hlt Hf j r'. split.
  - intros Hj'. pose proof (root_of_lt _ _ _ Hj') as [Hj _].
    rewrite length_insert in Hj.
    destruct (Hf j Hj) as (r0 & d & Hd).
    destruct (path_shortcut _ _ _ _ _ _ Hc Hg Hlt _ _ _ Hd) as (d' & _ & Hd').
    assert (r' = r0) as -> by (eapply root_of_det; [done | by exists d']).
    by exists d.
  - intros [d Hd].
    destruct (path_shortcut _ _ _ _ _ _ Hc Hg Hlt _ _ _ Hd) as (d' & _ & Hd').
    by exists d'.
Qed.

(** Hanging the root [c] under another root [t]. *)
Lemma path_link_other p c t j r d :
  p !! c = Some c → r ≠ c → path p j r d → path (<[c := t]> p) j r d.
Proof.
  intros Hc Hne. induction 1 as [r Hr | i k r d Hik Hne' Hp IH].
  - constructor. by rewrite list_lookup_insert_ne.
  - apply path_step with k; [| done | by apply IH].
    rewrite list_lookup_insert_ne; [done | congruence].
Qed.

Lemma path_link_moved p c t j d :
  p !! c = Some c → p !! t = Some t → c ≠ t →
  path p j c d → path (<[c := t]> p) j t (S d).
Proof.
  intros Hc Ht Hne Hp.
  remember c as r eqn:Hr in Hp.
  induction Hp as [r Hr' | i k r d Hik Hne' Hp IH]; subst.
  - apply path_step with t; [| done |].
    + apply list_lookup_insert_eq. by eapply lookup_lt_Some.
    + constructor. by rewrite list_lookup_insert_ne.
  - apply path_step with k; [| done | by apply IH].
    rewrite list_lookup_insert_ne; [done | congruence].
Qed.

Lemma forest_link p c t :
  p !! c = Some c → p !! t = Some t → c ≠ t →
  forest p → forest (<[c := t]> p).
Proof.
  intros Hc Ht Hne Hf i Hi. rewrite length_insert in Hi.
  destruct (Hf i Hi) as (r & d & Hd).
  destruct (decide (r = c)) as [-> | Hrc].
  - exists t, (S d). by apply path_link_moved.
  - exists r, d. by apply path_link_other.
Qed.

Lemma root_of_link p c t :
  p !! c = Some c → p !! t = Some t → c ≠ t → forest p →
  ∀ j r, root_of (<[c := t]> p) j r ↔
         ∃ r0, root_of p j r0 ∧ r = (if decide (r0 = c) then t else r0).
Proof.
  intros Hc Ht Hne Hf j r.
  assert (∀ r0, root_of p j r0 →
    root_of (<[c := t]> p) j (if decide (r0 = c) then t else r0)) as Hfwd.
  { intros r0 [d Hd]. case_decide as Hr0; subst.
    - exists (S d). by apply path_link_moved.
    - exists d. by apply path_link_other. }
  split.
  - intros Hj'. pose proof (root_of_lt _ _ _ Hj') as [Hj _].
    rewrite length_insert in Hj.
    destruct (Hf j Hj) as (r0 & Hr0). exists r0. split; [done |].
    eapply root_of_det; [done | by apply Hfwd].
  - intros (r0 & Hr0 & ->). by apply Hfwd.
Qed.

End Halving.

Section CountingRoots.

Implicit Types (p : list nat) (i j r c g d : nat).

Lemma length_filter_ext_in {A} (P Q : A → Prop)
    `{!∀ x, Decision (P x)} `{!∀ x, Decision (Q x)} (l : list A) :
  (∀ x, x ∈ l → P x ↔ Q x) →
  length (filter P l) = length (filter Q l).
Proof.
  induction l as [| a l IH]; intros HPQ; [done |].
  rewrite !filter_cons.
  assert (P a ↔ Q a) as Ha by (apply HPQ; left).
  assert (length (filter P l) = length (filter Q l)) as Hl.
  { apply IH. intros x Hx. apply HPQ. by right. }
  destruct (decide (P a)), (decide (Q a)); simpl; tauto || lia.
Qed.

Lemma length_filter_remove_one {A} (P Q : A → Prop)
    `{!∀ x, Decision (P x)} `{!∀ x, Decision (Q x)} (l : list A) (c : A) :
  NoDup l → c ∈ l → P c →
  (∀ x, x ∈ l → Q x ↔ P x ∧ x ≠ c) →
  length (filter P l) = S (length (filter Q l)).
Proof.
  induction l as [| a l IH]; intros Hnd Hc HPc HQ; [by apply elem_of_nil in Hc |].
  apply NoDup_cons in Hnd as [Ha Hnd].
  rewrite !filter_cons.
  assert (Q a ↔ P a ∧ a ≠ c) as HQa by (apply HQ; left).
  apply elem_of_cons in Hc as [-> | Hc].
  - assert (length (filter P l) = length (filter Q l)) as Hl.
    { apply length_filter_ext_in. intros x Hx.
      assert (Q x ↔ P x ∧ x ≠ a) as HQx by (apply HQ; by right).
      assert (x ≠ a) by (by intros ->). tauto. }
    destruct (decide (P a)), (decide (Q a)); simpl; try tauto. by rewrite Hl.
  - assert (length (filter P l) = S (length (filter Q l))) as Hl.
    { apply IH; [done | done | done |]. intros x Hx. apply HQ. by right. }
    assert (a ≠ c) by (by intros ->).
    destruct (decide (P a)), (decide (Q a)); simpl; try tauto; lia.
Qed.

Lemma num_roots_nil : num_roots [] = 0.
Proof. done. Qed.

(** [add]: a fresh self-parented slot is one more root. *)
Lemma num_roots_snoc p : num_roots (p ++ [length p]) = S (num_roots p).
Proof.
  unfold num_roots. rewrite length_app. simpl.
  rewrite Nat.add_1_r, seq_S, filter_app, length_app. simpl.
  rewrite filter_cons, decide_True by (by rewrite lookup_app_r, Nat.sub_diag).
  simpl. rewrite Nat.add_1_r. f_equal.
  apply length_filter_ext_in. intros x Hx%elem_of_seq.
  rewrite lookup_app_l by lia. done.
Qed.

(** An update that turns no non-root into a root and no root into a
    non-root keeps the number of roots. *)
Lemma num_roots_insert_nonroot p c q g :
  p !! c = Some q → c ≠ q → c ≠ g →
  num_roots (<[c := g]> p) = num_roots p.
Proof.
  intros Hc Hq Hg. unfold num_roots. rewrite length_insert.
  apply length_filter_ext_in. intros x Hx%elem_of_seq.
  destruct (decide (x = c)) as [-> | Hxc].
  - rewrite list_lookup_insert_eq by (by eapply lookup_lt_Some).
    split; intros; simplify_eq.
  - by rewrite list_lookup_insert_ne.
Qed.

(** [union]: hanging a root under another slot is one root fewer. *)
Lemma num_roots_insert_root p c t :
  p !! c = Some c → c ≠ t →
  num_roots p = S (num_roots (<[c := t]> p)).
Proof.
  intros Hc Ht. unfold num_roots. rewrite length_insert.
  pose proof (lookup_lt_Some _ _ _ Hc) as Hlt.
  apply length_filter_remove_one with c;
    [apply NoDup_seq | apply elem_of_seq; lia | done |].
  intros x Hx. destruct (decide (x = c)) as [-> | Hxc].
  - rewrite list_lookup_insert_eq by done. split; [intros; simplify_eq | tauto].
  - rewrite list_lookup_insert_ne by done. tauto.
Qed.

End CountingRoots.

Section Visited.

Implicit Types (p : list nat) (i j r c g d x : nat).

Lemma grandparent_eq p x q g :
  p !! x = Some q → p !! q = Some g → grandparent p x = Some g.
Proof. intros Hx Hq. unfold grandparent. simpl. rewrite Hx. simpl. by rewrite Hq. Qed.

Lemma path_grandparent p c q g r d :
  path p c r d → p !! c = Some q → p !! q = Some g →
  ∃ dg, path p g r dg ∧ dg ≤ d ∧ (c ≠ q → dg < d).
Proof.
  intros Hc Hcq Hqg.
  destruct (path_parent _ _ _ _ _ Hc Hcq) as (dq & Hq & Hle & Hlt).
  destruct (path_parent _ _ _ _ _ Hq Hqg) as (dg & Hg & Hle' & _).
  exists dg. split; [done | split; [lia |]]. intros Hne. specialize (Hlt Hne). lia.
Qed.

Lemma visited_depth p c x r d :
  path p c r d → visited p c x → ∃ dx, dx ≤ d ∧ path p x r dx.
Proof.
  intros Hc Hv. revert d Hc.
  induction Hv as [c | c q g x Hcq Hne Hqg Hv IH]; intros d Hc.
  - exists d. split; [lia | done].
  - destruct (path_grandparent _ _ _ _ _ _ Hc Hcq Hqg) as (dg & Hg & Hle & _).
    destruct (IH _ Hg) as (dx & Hle' & Hx). exists dx. split; [lia | done].
Qed.

Lemma visited_root p r x : p !! r = Some r → visited p r x → x = r.
Proof. intros Hr Hv. inversion Hv; subst; [done | congruence]. Qed.

Lemma visited_unfold p c q g x :
  p !! c = Some q → c ≠ q → p !! q = Some g →
  visited p c x ↔ x = c ∨ visited p g x.
Proof.
  intros Hcq Hne Hqg. split.
  - intros Hv. inversion Hv as [| ? q' g' ? Hcq' _ Hqg' Hv']; subst; [by left |].
    assert (q' = q) as -> by congruence.
    assert (g' = g) as -> by congruence. by right.
  - intros [-> | Hv]; [constructor | by econstructor].
Qed.

(** Slots closer to the root than [c] neither are [c] nor have [c] as
    parent, so an update at [c] is invisible from them. *)
Lemma lookup_insert_above p c g r dc x dx :
  path p c r dc → path p x r dx → dx < dc →
  <[c := g]> p !! x = p !! x.
Proof.
  intros Hc Hx Hlt. apply list_lookup_insert_ne. intros ->.
  destruct (path_det _ _ _ _ _ _ Hc Hx). lia.
Qed.

Lemma grandparent_insert_above p c g r dc x dx :
  path p c r dc → path p x r dx → dx < dc →
  grandparent (<[c := g]> p) x = grandparent p x.
Proof.
  intros Hc Hx Hlt. unfold grandparent. simpl.
  rewrite (lookup_insert_above _ _ _ _ _ _ _ Hc Hx Hlt).
  destruct (p !! x) as [q |] eqn:Hxq; [simpl | done].
  destruct (path_parent _ _ _ _ _ Hx Hxq) as (dq & Hq & Hle & _).
  rewrite (lookup_insert_above _ _ _ _ _ _ dq Hc Hq); [done | lia].
Qed.

Lemma visited_insert_above p c g r dc y dy x :
  path p c r dc → path p y r dy → dy < dc →
  visited (<[c := g]> p) y x ↔ visited p y x.
Proof.
  intros Hc Hy Hlt. split.
  - intros Hv. revert dy Hy Hlt.
    induction Hv as [y | y q g' x Hyq Hne Hqg Hv IH]; intros dy Hy Hlt;
      [constructor |].
    rewrite (lookup_insert_above _ _ _ _ _ _ _ Hc Hy Hlt) in Hyq.
    destruct (path_parent _ _ _ _ _ Hy Hyq) as (dq & Hq & Hle & _).
    rewrite (lookup_insert_above _ _ _ _ _ _ dq Hc Hq) in Hqg by lia.
    destruct (path_parent _ _ _ _ _ Hq Hqg) as (dg & Hg & Hle' & _).
    apply visited_skip with q g'; [done | done | done |].
    apply (IH dg); [done | lia].
  - intros Hv. revert dy Hy Hlt.
    induction Hv as [y | y q g' x Hyq Hne Hqg Hv IH]; intros dy Hy Hlt;
      [constructor |].
    destruct (path_parent _ _ _ _ _ Hy Hyq) as (dq & Hq & Hle & _).
    destruct (path_parent _ _ _ _ _ Hq Hqg) as (dg & Hg & Hle' & _).
    apply visited_skip with q g'; [| done | |].
    + by rewrite (lookup_insert_above _ _ _ _ _ _ _ Hc Hy Hlt).
    + rewrite (lookup_insert_above _ _ _ _ _ _ dq Hc Hq); [done | lia].
    + apply (IH dg); [done | lia].
Qed.

End Visited.

(** * The root-resolution loop *)

Section FindRoot.

Implicit Types (p : list nat) (i j r c g d x : nat) (s : EquivalenceClasses).

Lemma with_roots_id s : with_roots (_roots s) s = s.
Proof. by destruct s. Qed.

Lemma with_roots_with_roots p p' s :
  with_roots p' (with_roots p s) = with_roots p' s.
Proof. done. Qed.

Lemma find_root_loop_root fuel c s :
  _roots s !! c = Some c → find_root_loop (S fuel) c s = (s, Ret c).
Proof.
  intros Hc. simpl. unfold bind, roots_get. rewrite Hc.
  by rewrite decide_False by (by intros []).
Qed.

Lemma find_root_loop_step fuel c q g s :
  _roots s !! c = Some q → c ≠ q → _roots s !! q = Some g →
  find_root_loop (S fuel) c s =
  find_root_loop fuel g (with_roots (<[c := g]> (_roots s)) s).
Proof.
  intros Hc Hne Hq. pose proof (lookup_lt_Some _ _ _ Hc) as Hlt.
  simpl. unfold bind at 1, roots_get at 1. rewrite Hc.
  rewrite decide_True by done.
  unfold bind at 1, roots_get at 1. rewrite Hc.
  unfold bind at 1, roots_get at 1. rewrite Hq.
  unfold bind at 1, roots_set. rewrite decide_True by done.
  unfold bind, roots_get. simpl.
  by rewrite list_lookup_insert_eq by done.
Qed.

Lemma find_root_loop_index_error fuel c s :
  _roots s !! c = None → find_root_loop (S fuel) c s = (s, Raise IndexError).
Proof. intros Hc. simpl. unfold bind, roots_get. by rewrite Hc. Qed.

Lemma find_root_loop_index_error_parent fuel c q s :
  _roots s !! c = Some q → c ≠ q → _roots s !! q = None →
  find_root_loop (S fuel) c s = (s, Raise IndexError).
Proof.
  intros Hc Hne Hq. simpl. unfold bind at 1, roots_get at 1. rewrite Hc.
  rewrite decide_True by done.
  unfold bind at 1, roots_get at 1. rewrite Hc.
  unfold bind at 1, roots_get at 1. by rewrite Hq.
Qed.

(** What the loop does on a forest: it returns the root of the start
    slot, halves the path to it and leaves every slot's root alone. *)
Lemma find_root_loop_spec d :
  ∀ fuel s c r,
    path (_roots s) c r d → d < fuel → forest (_roots s) →
    ∃ p', find_root_loop fuel c s = (with_roots p' s, Ret r) ∧
          length p' = length (_roots s) ∧
          forest p' ∧
          (∀ j r', root_of p' j r' ↔ root_of (_roots s) j r') ∧
          num_roots p' = num_roots (_roots s) ∧
          halved (_roots s) c p'.
Proof.
  induction (lt_wf d) as [d _ IH]. intros fuel s c r Hc Hfuel Hf.
  destruct fuel as [| fuel]; [lia |].
  inversion Hc as [? Hr | ? q ? d0 Hcq Hne Hq]; subst.
  - exists (_roots s). rewrite with_roots_id.
    split; [by apply find_root_loop_root |].
    repeat split; try done.
    intros Hv. apply (visited_root _ _ _ Hr) in Hv as ->.
    by rewrite (grandparent_eq _ _ _ _ Hr Hr).
  - destruct (path_lookup _ _ _ _ Hq) as [g Hqg].
    destruct (path_grandparent _ _ _ _ _ _ Hc Hcq Hqg) as (dg & Hg & _ & Hlt).
    specialize (Hlt Hne).
    set (p := _roots s) in *. set (p1 := <[c := g]> p).
    destruct (path_shortcut _ _ _ _ _ _ Hc Hg Hlt _ _ _ Hg)
      as (dg' & Hle & Hg').
    destruct (IH dg' ltac:(lia) fuel (with_roots p1 s) g r Hg' ltac:(lia))
      as (p' & Hrun & Hlen & Hf' & Hroot & Hnum & Hhalf).
    { by eapply forest_shortcut. }
    simpl in Hrun, Hlen, Hroot, Hnum, Hhalf. subst p1. exists p'.
    split; [by rewrite (find_root_loop_step _ _ _ _ _ Hcq Hne Hqg) |].
    split; [by rewrite Hlen; apply length_insert |].
    split; [done |].
    split; [intros j r'; rewrite Hroot; by eapply root_of_shortcut |].
    split.
    { rewrite Hnum. apply num_roots_insert_nonroot with q; [done | done |].
      intros ->. destruct (path_det _ _ _ _ _ _ Hc Hg). lia. }
    assert (¬ visited p g c) as Hnc.
    { intros Hv. destruct (visited_depth _ _ _ _ _ Hg Hv) as (dx & Hle' & Hx).
      destruct (path_det _ _ _ _ _ _ Hc Hx). lia. }
    intros x. rewrite (visited_unfold _ _ _ _ _ Hcq Hne Hqg).
    destruct (Hhalf x) as [Hvis Hnvis].
    rewrite (visited_insert_above _ _ _ _ _ _ _ _ Hc Hg Hlt) in Hvis, Hnvis.
    split.
    + intros [-> | Hv].
      * rewrite (Hnvis Hnc).
        rewrite list_lookup_insert_eq by (by eapply lookup_lt_Some).
        by rewrite (grandparent_eq _ _ _ _ Hcq Hqg).
      * rewrite (Hvis Hv).
        destruct (visited_depth _ _ _ _ _ Hg Hv) as (dx & Hle' & Hx).
        apply (grandparent_insert_above _ _ _ _ _ _ dx Hc Hx). lia.
    + intros Hn. rewrite Hnvis by tauto.
      apply list_lookup_insert_ne. intros ->. tauto.
Qed.

(** More fuel never changes a result that was reached. *)
Lemma find_root_loop_fuel_mono fuel :
  ∀ fuel' c s,
    fuel ≤ fuel' →
    snd (find_root_loop fuel c s) ≠ OutOfFuel →
    find_root_loop fuel' c s = find_root_loop fuel c s.
Proof.
  induction fuel as [| fuel IH]; intros fuel' c s Hle Hres; [done |].
  destruct fuel' as [| fuel']; [lia |].
  destruct (_roots s !! c) as [q |] eqn:Hc;
    [| by rewrite !find_root_loop_index_error].
  destruct (decide (c = q)) as [<- | Hne];
    [by rewrite !find_root_loop_root |].
  destruct (_roots s !! q) as [g |] eqn:Hq.
  - rewrite !(find_root_loop_step _ _ _ _ _ Hc Hne Hq) in *.
    apply IH; [lia | done].
  - by rewrite !(find_root_loop_index_error_parent _ _ _ _ Hc Hne Hq).
Qed.

End FindRoot.

(** * Stepping through the methods *)

Section Steps.

Implicit Types (p : list nat) (i j r c g d x : nat) (s : EquivalenceClasses).
Implicit Types (k a b : K).

Lemma bind_Ret {A B} (m : M A) (f : A → M B) s s' v :
  m s = (s', Ret v) → bind m f s = f v s'.
Proof. intros Hm. unfold bind. by rewrite Hm. Qed.

Lemma bind_Raise {A B} (m : M A) (f : A → M B) s s' e :
  m s = (s', Raise e) → bind m f s = (s', Raise e).
Proof. intros Hm. unfold bind. by rewrite Hm. Qed.

Lemma contains_true k s i : _identifiers s !! k = Some i → contains k s = true.
Proof. intros Hk. unfold contains. apply bool_decide_eq_true. eauto. Qed.

Lemma contains_false k s : _identifiers s !! k = None → contains k s = false.
Proof.
  intros Hk. unfold contains. apply bool_decide_eq_false.
  rewrite Hk. by intros [? ?].
Qed.

Lemma identifiers_get_Some k s i :
  _identifiers s !! k = Some i → identifiers_get k s = (s, Ret i).
Proof. intros Hk. unfold identifiers_get. by rewrite Hk. Qed.

Lemma sizes_get_Some s i z :
  _sizes s !! i = Some z → sizes_get i s = (s, Ret z).
Proof. intros Hz. unfold sizes_get. by rewrite Hz. Qed.

Lemma roots_set_lt s i v :
  i < length (_roots s) →
  roots_set i v s = (with_roots (<[i := v]> (_roots s)) s, Ret tt).
Proof. intros Hi. unfold roots_set. by rewrite decide_True. Qed.

Lemma sizes_set_lt s i v :
  i < length (_sizes s) →
  sizes_set i v s = (with_sizes (<[i := v]> (_sizes s)) s, Ret tt).
Proof. intros Hi. unfold sizes_set. by rewrite decide_True. Qed.

Lemma nodes_get_Some s i nd :
  _nodes s !! i = Some nd → nodes_get i s = (s, Ret i).
Proof. intros Hn. unfold nodes_get. by rewrite Hn. Qed.

Lemma node_update_Some f s i nd :
  _nodes s !! i = Some nd →
  node_update f i s = (with_nodes (alter f i (_nodes s)) s, Ret tt).
Proof. intros Hn. unfold node_update. by rewrite Hn. Qed.

(** [_find_root] on a forest. *)
Lemma find_root_spec s c r :
  forest (_roots s) → root_of (_roots s) c r →
  ∃ p', _find_root c s = (with_roots p' s, Ret r) ∧
        length p' = length (_roots s) ∧
        forest p' ∧
        (∀ j r', root_of p' j r' ↔ root_of (_roots s) j r') ∧
        num_roots p' = num_roots (_roots s) ∧
        halved (_roots s) c p'.
Proof.
  intros Hf [d Hd]. unfold _find_root.
  apply (find_root_loop_spec d); [done | by eapply path_bound | done].
Qed.

(** The two root resolutions at the head of [union]. *)
Lemma find_root_twice s c1 c2 r1 r2 :
  forest (_roots s) → root_of (_roots s) c1 r1 → root_of (_roots s) c2 r2 →
  ∃ p1 p2,
    _find_root c1 s = (with_roots p1 s, Ret r1) ∧
    _find_root c2 (with_roots p1 s) = (with_roots p2 s, Ret r2) ∧
    length p2 = length (_roots s) ∧
    forest p2 ∧
    (∀ j r', root_of p2 j r' ↔ root_of (_roots s) j r') ∧
    num_roots p2 = num_roots (_roots s).
Proof.
  intros Hf H1 H2.
  destruct (find_root_spec s c1 r1 Hf H1)
    as (p1 & Hrun1 & Hlen1 & Hf1 & Hroot1 & Hnum1 & _).
  destruct (find_root_spec (with_roots p1 s) c2 r2 Hf1)
    as (p2 & Hrun2 & Hlen2 & Hf2 & Hroot2 & Hnum2 & _).
  { simpl. by apply Hroot1. }
  simpl in *. exists p1, p2.
  split; [done |]. split; [done |].
  split; [congruence |]. split; [done |].
  split; [| congruence].
  intros j r'. by rewrite Hroot2, Hroot1.
Qed.

End Steps.

Section UnionRun.

Implicit Types (p : list nat) (i j r c g d x : nat) (s : EquivalenceClasses).
Implicit Types (k a b : K).

Lemma wf_size_lookup s r :
  wf s → r < length (_roots s) → ∃ z, _sizes s !! r = Some z.
Proof.
  intros Hwf Hr. apply lookup_lt_is_Some. by rewrite (wf_sizes_len _ Hwf).
Qed.

Lemma wf_slot_root s k i :
  wf s → _identifiers s !! k = Some i →
  i < length (_roots s) ∧ ∃ r, root_of (_roots s) i r.
Proof.
  intros Hwf Hk. destruct (wf_ids_node _ Hwf _ _ Hk) as (nd & Hnd & _).
  apply lookup_lt_Some in Hnd. rewrite (wf_nodes_len _ Hwf) in Hnd.
  split; [done | by apply (wf_forest _ Hwf)].
Qed.

(** The complete effect of a [union] of two registered identifiers. *)
Lemma union_run s a b ia ib r1 r2 :
  wf s →
  _identifiers s !! a = Some ia → _identifiers s !! b = Some ib →
  root_of (_roots s) ia r1 → root_of (_roots s) ib r2 →
  ∃ p2,
    length p2 = length (_roots s) ∧
    forest p2 ∧
    (∀ j r', root_of p2 j r' ↔ root_of (_roots s) j r') ∧
    num_roots p2 = num_roots (_roots s) ∧
    ((r1 = r2 ∧ union a b s = (with_roots p2 s, Ret tt)) ∨
     (r1 ≠ r2 ∧ ∃ z1 z2,
        _sizes s !! r1 = Some z1 ∧ _sizes s !! r2 = Some z2 ∧
        union a b s =
          (if decide (z1 < z2) then linked s p2 r1 r2 (z2 + z1)
           else linked s p2 r2 r1 (z1 + z2), Ret tt))).
Proof.
  intros Hwf Ha Hb H1 H2.
  destruct (find_root_twice s ia ib r1 r2 (wf_forest _ Hwf) H1 H2)
    as (p1 & p2 & Hrun1 & Hrun2 & Hlen & Hf & Hroot & Hnum).
  exists p2. do 4 (split; [done |]).
  unfold union.
  rewrite (contains_true _ _ _ Ha), (contains_true _ _ _ Hb). simpl.
  rewrite (bind_Ret _ _ _ _ _ (identifiers_get_Some _ _ _ Ha)).
  rewrite (bind_Ret _ _ _ _ _ (identifiers_get_Some _ _ _ Hb)).
  rewrite (bind_Ret _ _ _ _ _ Hrun1).
  rewrite (bind_Ret _ _ _ _ _ Hrun2).
  destruct (decide (r1 = r2)) as [-> | Hne]; [left; done | right].
  split; [done |].
  pose proof (root_of_lt _ _ _ H1) as [_ Hr1].
  pose proof (root_of_lt _ _ _ H2) as [_ Hr2].
  destruct (wf_size_lookup _ _ Hwf Hr1) as [z1 Hz1].
  destruct (wf_size_lookup _ _ Hwf Hr2) as [z2 Hz2].
  exists z1, z2. do 2 (split; [done |]).
  pose proof (wf_sizes_len _ Hwf) as Hszlen.
  rewrite (bind_Ret _ _ (with_roots p2 s) _ z1) by (by apply sizes_get_Some).
  rewrite (bind_Ret _ _ (with_roots p2 s) _ z2) by (by apply sizes_get_Some).
  destruct (decide (z1 < z2)) as [Hlt | Hge].
  - erewrite bind_Ret; [| erewrite bind_Ret; [| apply roots_set_lt; simpl; lia]].
    2:{ erewrite bind_Ret; [| by apply sizes_get_Some].
        erewrite bind_Ret; [| by apply sizes_get_Some].
        apply sizes_set_lt. simpl. lia. }
    done.
  - erewrite bind_Ret; [| erewrite bind_Ret; [| apply roots_set_lt; simpl; lia]].
    2:{ erewrite bind_Ret; [| by apply sizes_get_Some].
        erewrite bind_Ret; [| by apply sizes_get_Some].
        apply sizes_set_lt. simpl. lia. }
    done.
Qed.

End UnionRun.

(** * The invariant is kept by every method *)

Section Invariant.

Implicit Types (p : list nat) (i j r c g d x : nat) (s : EquivalenceClasses).
Implicit Types (k a b : K).

Lemma wf_init : wf init.
Proof.
  split; try done.
  - intros i Hi. simpl in Hi. lia.
  - intros i j (nd & Hnd & _). simpl in Hnd. by rewrite lookup_nil in Hnd.
  - intros i j. split; intros (nd & Hnd & _); simpl in Hnd;
      by rewrite lookup_nil in Hnd.
Qed.

Lemma wf_with_roots s p' :
  wf s → length p' = length (_roots s) → forest p' →
  (∀ j r', root_of p' j r' ↔ root_of (_roots s) j r') →
  num_roots p' = num_roots (_roots s) →
  wf (with_roots p' s).
Proof.
  intros Hwf Hlen Hf Hroot Hnum. split; simpl.
  - rewrite Hlen. apply (wf_sizes_len _ Hwf).
  - rewrite Hlen. apply (wf_nodes_len _ Hwf).
  - apply (wf_ids_node _ Hwf).
  - apply (wf_node_ids _ Hwf).
  - done.
  - rewrite Hnum. apply (wf_count _ Hwf).
  - intros r Hr.
    assert (_roots s !! r = Some r) as Hr0
      by (by eapply root_of_is_root, Hroot, root_of_root).
    destruct (wf_sizes _ Hwf r Hr0) as (l & [Hnd Hl] & Hz).
    exists l. split; [| done]. split; [done |].
    intros i. by rewrite Hl, Hroot.
  - apply (wf_edge_range _ Hwf).
  - apply (wf_edge_sym _ Hwf).
Qed.

Lemma wf_linked s p2 c t zc zt :
  wf s → length p2 = length (_roots s) → forest p2 →
  (∀ j r', root_of p2 j r' ↔ root_of (_roots s) j r') →
  num_roots p2 = num_roots (_roots s) →
  p2 !! c = Some c → p2 !! t = Some t → c ≠ t →
  _sizes s !! c = Some zc → _sizes s !! t = Some zt →
  wf (linked s p2 c t (zt + zc)).
Proof.
  intros Hwf Hlen Hf Hroot Hnum Hc Ht Hne Hzc Hzt. split; simpl.
  - rewrite !length_insert, Hlen. apply (wf_sizes_len _ Hwf).
  - rewrite length_insert, Hlen. apply (wf_nodes_len _ Hwf).
  - apply (wf_ids_node _ Hwf).
  - apply (wf_node_ids _ Hwf).
  - by apply forest_link.
  - rewrite (wf_count _ Hwf), <- Hnum.
    rewrite (num_roots_insert_root p2 c t Hc Hne). lia.
  - intros r Hr.
    assert (r ≠ c) as Hrc.
    { intros ->. rewrite list_lookup_insert_eq in Hr by (by eapply lookup_lt_Some).
      congruence. }
    rewrite list_lookup_insert_ne in Hr by done.
    assert (_roots s !! r = Some r) as Hr0
      by (by eapply root_of_is_root, Hroot, root_of_root).
    destruct (wf_sizes _ Hwf r Hr0) as (l & [Hnd Hl] & Hz).
    destruct (decide (r = t)) as [-> | Hrt].
    + assert (_roots s !! c = Some c) as Hc0
        by (by eapply root_of_is_root, Hroot, root_of_root).
      destruct (wf_sizes _ Hwf c Hc0) as (lc & [Hndc Hlc] & Hzc').
      exists (l ++ lc). split; [split |].
      * apply NoDup_app. split; [done | split; [| done]].
        intros i Hi Hi'. apply Hl in Hi. apply Hlc in Hi'.
        apply Hne. by eapply root_of_det.
      * intros i. rewrite elem_of_app, Hl, Hlc.
        rewrite (root_of_link p2 c t Hc Ht Hne Hf). setoid_rewrite Hroot. split.
        -- intros [Hi | Hi]; eexists; (split; [done |]).
           ++ by rewrite decide_False by (by apply not_eq_sym).
           ++ by rewrite decide_True.
        -- intros (r0 & Hi & Heq). case_decide; subst; [by right | by left].
      * rewrite list_lookup_insert_eq by (by eapply lookup_lt_Some).
        rewrite length_app. congruence.
    + exists l. split; [split; [done |] |].
      * intros i. rewrite Hl.
        rewrite (root_of_link p2 c t Hc Ht Hne Hf). setoid_rewrite Hroot. split.
        -- intros Hi. exists r. split; [done |]. by rewrite decide_False.
        -- intros (r0 & Hi & Heq). case_decide; subst; [done | done].
      * by rewrite list_lookup_insert_ne by (by apply not_eq_sym).
  - apply (wf_edge_range _ Hwf).
  - apply (wf_edge_sym _ Hwf).
Qed.

Lemma path_app p q i r d : path p i r d → path (p ++ q) i r d.
Proof.
  induction 1 as [r Hr | i j r d Hij Hne Hp IH].
  - constructor. by apply lookup_app_l_Some.
  - apply path_step with j; [by apply lookup_app_l_Some | done | done].
Qed.

Lemma root_of_snoc p :
  forest p →
  ∀ i r, root_of (p ++ [length p]) i r ↔
         root_of p i r ∨ (i = length p ∧ r = length p).
Proof.
  intros Hf i r.
  assert (root_of (p ++ [length p]) (length p) (length p)) as Hnew.
  { apply root_of_root. by rewrite lookup_app_r, Nat.sub_diag. }
  split.
  - intros Hi. pose proof (root_of_lt _ _ _ Hi) as [Hlt _].
    rewrite length_app in Hlt. simpl in Hlt.
    destruct (decide (i = length p)) as [-> | Hne].
    + right. split; [done |]. by eapply root_of_det.
    + left. destruct (Hf i ltac:(lia)) as (r0 & d & Hd).
      assert (r = r0) as ->; [| by exists d].
      eapply root_of_det; [done |]. exists d. by apply path_app.
  - intros [[d Hd] | [-> ->]]; [| done]. exists d. by apply path_app.
Qed.

Lemma forest_snoc p : forest p → forest (p ++ [length p]).
Proof.
  intros Hf i Hi. rewrite length_app in Hi. simpl in Hi.
  destruct (decide (i = length p)) as [-> | Hne].
  - exists (length p). apply root_of_root.
    by rewrite lookup_app_r, Nat.sub_diag.
  - destruct (Hf i ltac:(lia)) as (r & d & Hd).
    exists r, d. by apply path_app.
Qed.

(** The state a successful [add] produces. *)
Lemma add_fresh k s :
  _identifiers s !! k = None →
  add k s =
    (mkEC (_roots s ++ [length (_roots s)]) (_nodes s ++ [new_Node k])
          (<[k := length (_roots s)]> (_identifiers s))
          (_sizes s ++ [1]) (_count s + 1)%Z, Ret tt).
Proof. intros Hk. unfold add. by rewrite (contains_false _ _ Hk). Qed.

Lemma add_duplicate k s i :
  _identifiers s !! k = Some i →
  add k s =
    (s, Raise (ValueError "Item already exists within EquivalenceClasses")).
Proof. intros Hk. unfold add. by rewrite (contains_true _ _ _ Hk). Qed.

Lemma snoc_lookup_inv {A} (l : list A) (a b : A) i :
  (l ++ [a]) !! i = Some b →
  l !! i = Some b ∨ (i = length l ∧ b = a).
Proof.
  intros Hi. destruct (decide (i < length l)) as [Hlt | Hge].
  - left. by rewrite lookup_app_l in Hi.
  - right. rewrite lookup_app_r in Hi by lia.
    destruct (i - length l) as [| n] eqn:Hn; simpl in Hi; [| by rewrite lookup_nil in Hi].
    split; [lia | congruence].
Qed.

Lemma wf_add_fresh k s :
  wf s → _identifiers s !! k = None → wf (fst (add k s)).
Proof.
  intros Hwf Hk. rewrite (add_fresh _ _ Hk). simpl.
  pose proof (wf_nodes_len _ Hwf) as Hnl.
  assert (∀ i j, has_edge (mkEC (_roots s ++ [length (_roots s)])
      (_nodes s ++ [new_Node k]) (<[k := length (_roots s)]> (_identifiers s))
      (_sizes s ++ [1]) (_count s + 1)%Z) i j ↔ has_edge s i j) as Hedge.
  { intros i j. unfold has_edge. simpl. split.
    - intros (nd & Hnd & Hj). apply snoc_lookup_inv in Hnd as [Hnd | [_ ->]].
      + by exists nd.
      + simpl in Hj. by apply elem_of_empty in Hj.
    - intros (nd & Hnd & Hj). exists nd. split; [by apply lookup_app_l_Some | done]. }
  assert (∀ i j, has_back_edge (mkEC (_roots s ++ [length (_roots s)])
      (_nodes s ++ [new_Node k]) (<[k := length (_roots s)]> (_identifiers s))
      (_sizes s ++ [1]) (_count s + 1)%Z) j i ↔ has_back_edge s j i) as Hback.
  { intros i j. unfold has_back_edge. simpl. split.
    - intros (nd & Hnd & Hj). apply snoc_lookup_inv in Hnd as [Hnd | [_ ->]].
      + by exists nd.
      + simpl in Hj. by apply elem_of_empty in Hj.
    - intros (nd & Hnd & Hj). exists nd. split; [by apply lookup_app_l_Some | done]. }
  split; simpl.
  - rewrite !length_app. simpl. by rewrite (wf_sizes_len _ Hwf).
  - rewrite !length_app. simpl. by rewrite Hnl.
  - intros k' i Hk'. destruct (decide (k' = k)) as [-> | Hne].
    + rewrite lookup_insert_eq in Hk'. simplify_eq.
      exists (new_Node k). split; [| done].
      by rewrite <- Hnl, lookup_app_r, Nat.sub_diag.
    + rewrite lookup_insert_ne in Hk' by done.
      destruct (wf_ids_node _ Hwf _ _ Hk') as (nd & Hnd & Hid).
      exists nd. split; [by apply lookup_app_l_Some | done].
  - intros i nd Hnd. apply snoc_lookup_inv in Hnd as [Hnd | [-> ->]].
    + pose proof (wf_node_ids _ Hwf _ _ Hnd) as Hid.
      rewrite lookup_insert_ne; [done | congruence].
    + simpl. by rewrite lookup_insert_eq, Hnl.
  - apply forest_snoc, (wf_forest _ Hwf).
  - rewrite num_roots_snoc, (wf_count _ Hwf). lia.
  - intros r Hr. apply snoc_lookup_inv in Hr as [Hr | [Hr _]].
    + destruct (wf_sizes _ Hwf r Hr) as (l & [Hnd Hl] & Hz).
      exists l. split; [split; [done |] | by apply lookup_app_l_Some].
      intros i. rewrite Hl, (root_of_snoc _ (wf_forest _ Hwf)).
      apply lookup_lt_Some in Hr. split; [by left |].
      intros [Hi | [_ ->]]; [done | lia].
    + subst r. exists [length (_roots s)]. split; [split |].
      * apply NoDup_singleton.
      * intros i. rewrite list_elem_of_singleton, (root_of_snoc _ (wf_forest _ Hwf)).
        split; [by right |]. intros [Hi | [-> _]]; [| done].
        apply root_of_lt in Hi. lia.
      * by rewrite <- (wf_sizes_len _ Hwf), lookup_app_r, Nat.sub_diag.
  - intros i j Hij%Hedge. apply (wf_edge_range _ Hwf) in Hij.
    rewrite length_app. lia.
  - intros i j. rewrite Hedge, Hback. apply (wf_edge_sym _ Hwf).
Qed.

Lemma wf_add k s : wf s → wf (fst (add k s)).
Proof.
  intros Hwf. destruct (_identifiers s !! k) as [i |] eqn:Hk.
  - by rewrite (add_duplicate _ _ _ Hk).
  - by apply wf_add_fresh.
Qed.

End Invariant.

Section Runs.

Implicit Types (p : list nat) (i j r c g d x : nat) (s : EquivalenceClasses).
Implicit Types (k a b : K).

Lemma find_run s k i r :
  wf s → _identifiers s !! k = Some i → root_of (_roots s) i r →
  ∃ p', find k s = (with_roots p' s, Ret r) ∧
        length p' = length (_roots s) ∧
        forest p' ∧
        (∀ j r', root_of p' j r' ↔ root_of (_roots s) j r') ∧
        num_roots p' = num_roots (_roots s) ∧
        halved (_roots s) i p'.
Proof.
  intros Hwf Hk Hr.
  destruct (find_root_spec s i r (wf_forest _ Hwf) Hr) as (p' & Hrun & Hrest).
  exists p'. split; [| done]. unfold find.
  by rewrite (bind_Ret _ _ _ _ _ (identifiers_get_Some _ _ _ Hk)).
Qed.

Lemma find_unknown s k :
  _identifiers s !! k = None → find k s = (s, Raise KeyError).
Proof. intros Hk. unfold find, bind, identifiers_get. by rewrite Hk. Qed.

Lemma union_unknown s a b :
  _identifiers s !! a = None ∨ _identifiers s !! b = None →
  union a b s =
    (s, Raise (ValueError
       "Both union identifiers must already exist within an equivalence class")).
Proof.
  intros Hab. unfold union.
  destruct Hab as [Hk | Hk]; rewrite (contains_false _ _ Hk); simpl; [done |].
  by rewrite orb_true_r.
Qed.

Lemma get_node_run s k i :
  wf s → _identifiers s !! k = Some i → get_node k s = (s, Ret i).
Proof.
  intros Hwf Hk. unfold get_node. rewrite (contains_true _ _ _ Hk). simpl.
  rewrite (bind_Ret _ _ _ _ _ (identifiers_get_Some _ _ _ Hk)).
  destruct (wf_ids_node _ Hwf _ _ Hk) as (nd & Hnd & _).
  by eapply nodes_get_Some.
Qed.

Lemma get_node_unknown s k :
  _identifiers s !! k = None →
  get_node k s =
    (s, Raise (ValueError "Identifier not tracked by equivalence classes")).
Proof. intros Hk. unfold get_node. by rewrite (contains_false _ _ Hk). Qed.

(** [union] of registered identifiers, seen through the roots: the
    roots [r1] and [r2] of the two arguments become one, every other
    class is left alone. *)
Lemma union_post s a b ia ib r1 r2 :
  wf s →
  _identifiers s !! a = Some ia → _identifiers s !! b = Some ib →
  root_of (_roots s) ia r1 → root_of (_roots s) ib r2 →
  ∃ s1 child parent,
    union a b s = (s1, Ret tt) ∧
    wf s1 ∧
    _nodes s1 = _nodes s ∧
    _identifiers s1 = _identifiers s ∧
    ((child = r1 ∧ parent = r2) ∨ (child = r2 ∧ parent = r1)) ∧
    (∀ j r, root_of (_roots s1) j r ↔
            ∃ r0, root_of (_roots s) j r0 ∧
                  r = if decide (r0 = child) then parent else r0) ∧
    _count s1 = (if decide (r1 = r2) then _count s else _count s - 1)%Z.
Proof.
  intros Hwf Ha Hb H1 H2.
  destruct (union_run s a b ia ib r1 r2 Hwf Ha Hb H1 H2)
    as (p2 & Hlen & Hf & Hroot & Hnum & Hcases).
  assert (p2 !! r1 = Some r1) as Hp1.
  { eapply root_of_is_root, Hroot, H1. }
  assert (p2 !! r2 = Some r2) as Hp2.
  { eapply root_of_is_root, Hroot, H2. }
  destruct Hcases as [[-> Hrun] | (Hne & z1 & z2 & Hz1 & Hz2 & Hrun)].
  - exists (with_roots p2 s), r2, r2.
    split; [done |]. split; [by apply wf_with_roots |].
    do 2 (split; [done |]). split; [by left |].
    split; [| by rewrite decide_True].
    intros j r. simpl. rewrite Hroot. split.
    + intros Hj. exists r. split; [done |]. by case_decide.
    + intros (r0 & Hj & ->). by case_decide; subst.
  - rewrite decide_False by done. destruct (decide (z1 < z2)).
    + exists (linked s p2 r1 r2 (z2 + z1)), r1, r2.
      split; [done |]. split; [by apply wf_linked |].
      do 2 (split; [done |]). split; [by left |].
      split; [| done].
      intros j r. simpl. rewrite (root_of_link p2 r1 r2 Hp1 Hp2 Hne Hf).
      by setoid_rewrite Hroot.
    + exists (linked s p2 r2 r1 (z1 + z2)), r2, r1.
      split; [done |].
      split; [apply wf_linked; by auto using not_eq_sym |].
      do 2 (split; [done |]). split; [by right |].
      split; [| done].
      intros j r. simpl.
      rewrite (root_of_link p2 r2 r1 Hp2 Hp1 (not_eq_sym Hne) Hf).
      by setoid_rewrite Hroot.
Qed.

End Runs.

(** * Edge bookkeeping *)

Section Edges.

Implicit Types (p : list nat) (i j r c g d x y : nat) (s : EquivalenceClasses).
Implicit Types (k a b : K) (nodes : list Node).

Lemma record_edge_length i j nodes :
  length (record_edge i j nodes) = length nodes.
Proof. unfold record_edge. by rewrite !length_alter. Qed.

Lemma record_edge_lookup i j nodes x :
  record_edge i j nodes !! x =
    (λ nd, mkNode (identifier nd)
             ((if decide (x = i) then {[ j ]} else ∅) ∪ destinations nd)
             ((if decide (x = j) then {[ i ]} else ∅) ∪ sources nd))
    <$> nodes !! x.
Proof.
  unfold record_edge. rewrite !list_lookup_alter.
  destruct (decide (j = x)) as [-> | Hj], (decide (i = x)) as [-> | Hi];
    rewrite ?decide_True by done;
    repeat (rewrite decide_False by (by apply not_eq_sym));
    destruct (nodes !! x) as [[id ds ss] |]; simpl; try done;
    unfold add_source, add_destination; simpl;
    repeat case_decide; try done;
    by rewrite ?(left_id_L ∅ (∪)).
Qed.

Lemma has_edge_record_edge s i j x y :
  i < length (_nodes s) →
  has_edge (with_nodes (record_edge i j (_nodes s)) s) x y ↔
  has_edge s x y ∨ (x = i ∧ y = j).
Proof.
  intros Hi. unfold has_edge. simpl. setoid_rewrite record_edge_lookup. split.
  - intros (nd' & Hnd' & Hy).
    destruct (_nodes s !! x) as [nd |] eqn:Hx; simplify_eq/=.
    case_decide;
      [| left; exists nd; split; [done | by rewrite (left_id_L ∅ (∪)) in Hy]].
    apply elem_of_union in Hy as [->%elem_of_singleton | Hy]; [by right |].
    left. by exists nd.
  - intros [(nd & Hnd & Hy) | [-> ->]].
    + rewrite Hnd. simpl. eexists. split; [done |]. simpl.
      apply elem_of_union. by right.
    + destruct (lookup_lt_is_Some_2 _ _ Hi) as [nd Hnd]. rewrite Hnd. simpl.
      eexists. split; [done |]. simpl. rewrite decide_True by done.
      apply elem_of_union. left. by apply elem_of_singleton.
Qed.

Lemma has_back_edge_record_edge s i j y x :
  j < length (_nodes s) →
  has_back_edge (with_nodes (record_edge i j (_nodes s)) s) y x ↔
  has_back_edge s y x ∨ (x = i ∧ y = j).
Proof.
  intros Hj. unfold has_back_edge. simpl. setoid_rewrite record_edge_lookup. split.
  - intros (nd' & Hnd' & Hx).
    destruct (_nodes s !! y) as [nd |] eqn:Hy; simplify_eq/=.
    case_decide;
      [| left; exists nd; split; [done | by rewrite (left_id_L ∅ (∪)) in Hx]].
    apply elem_of_union in Hx as [->%elem_of_singleton | Hx]; [by right |].
    left. by exists nd.
  - intros [(nd & Hnd & Hx) | [-> ->]].
    + rewrite Hnd. simpl. eexists. split; [done |]. simpl.
      apply elem_of_union. by right.
    + destruct (lookup_lt_is_Some_2 _ _ Hj) as [nd Hnd]. rewrite Hnd. simpl.
      eexists. split; [done |]. simpl. rewrite decide_True by done.
      apply elem_of_union. left. by apply elem_of_singleton.
Qed.

Lemma wf_record_edge s i j :
  wf s → i < length (_nodes s) → j < length (_nodes s) →
  wf (with_nodes (record_edge i j (_nodes s)) s).
Proof.
  intros Hwf Hi Hj. split; simpl.
  - apply (wf_sizes_len _ Hwf).
  - rewrite record_edge_length. apply (wf_nodes_len _ Hwf).
  - intros k x Hk. destruct (wf_ids_node _ Hwf _ _ Hk) as (nd & Hnd & Hid).
    rewrite record_edge_lookup, Hnd. simpl. eexists. split; [done | done].
  - intros x nd'. rewrite record_edge_lookup. intros Hnd'.
    destruct (_nodes s !! x) as [nd |] eqn:Hx; simplify_eq/=.
    by apply (wf_node_ids _ Hwf).
  - apply (wf_forest _ Hwf).
  - apply (wf_count _ Hwf).
  - apply (wf_sizes _ Hwf).
  - intros x y [Hxy | [-> ->]]%has_edge_record_edge; [| | done].
    + rewrite record_edge_length. by apply (wf_edge_range _ Hwf x y).
    + by rewrite record_edge_length.
  - intros x y. rewrite has_edge_record_edge, has_back_edge_record_edge by done.
    by rewrite (wf_edge_sym _ Hwf).
Qed.

(** A [connect] of registered identifiers: the [union], then the edge. *)
Lemma connect_run s a b ia ib :
  wf s →
  _identifiers s !! a = Some ia → _identifiers s !! b = Some ib →
  ∃ s1, union a b s = (s1, Ret tt) ∧
        wf s1 ∧ _nodes s1 = _nodes s ∧ _identifiers s1 = _identifiers s ∧
        connect a b s = (with_nodes (record_edge ia ib (_nodes s1)) s1, Ret tt).
Proof.
  intros Hwf Ha Hb.
  destruct (wf_slot_root _ _ _ Hwf Ha) as (_ & r1 & H1).
  destruct (wf_slot_root _ _ _ Hwf Hb) as (_ & r2 & H2).
  destruct (union_post s a b ia ib r1 r2 Hwf Ha Hb H1 H2)
    as (s1 & child & parent & Hrun & Hwf1 & Hnodes & Hids & _).
  exists s1. do 4 (split; [done |]). unfold connect.
  rewrite (bind_Ret _ _ _ _ _ Hrun).
  rewrite <- Hids in Ha, Hb.
  rewrite (bind_Ret _ _ _ _ _ (get_node_run _ _ _ Hwf1 Ha)).
  rewrite (bind_Ret _ _ _ _ _ (get_node_run _ _ _ Hwf1 Hb)).
  destruct (wf_ids_node _ Hwf1 _ _ Ha) as (nda & Hnda & _).
  destruct (wf_ids_node _ Hwf1 _ _ Hb) as (ndb & Hndb & _).
  rewrite (bind_Ret _ _ _ _ _ (node_update_Some _ _ _ _ Hnda)).
  unfold node_update. simpl.
  destruct (alter (add_destination ib) ia (_nodes s1) !! ib) as [nd |] eqn:Hnd;
    [done |].
  apply lookup_ge_None in Hnd. rewrite length_alter in Hnd.
  apply lookup_lt_Some in Hndb. lia.
Qed.

Lemma connect_unknown s a b :
  _identifiers s !! a = None ∨ _identifiers s !! b = None →
  connect a b s =
    (s, Raise (ValueError
       "Both union identifiers must already exist within an equivalence class")).
Proof.
  intros Hab. unfold connect. by rewrite (bind_Raise _ _ _ _ _ (union_unknown _ _ _ Hab)).
Qed.

End Edges.

(** * Reachable states satisfy the invariant *)

Section Reachable.

Implicit Types (p : list nat) (i j r g d : nat) (s : EquivalenceClasses).
Implicit Types (k a b x y : K) (tr : list call) (c : call).

Lemma wf_find k s : wf s → wf (fst (find k s)).
Proof.
  intros Hwf. destruct (_identifiers s !! k) as [i |] eqn:Hk.
  - destruct (wf_slot_root _ _ _ Hwf Hk) as (_ & r & Hr).
    destruct (find_run s k i r Hwf Hk Hr)
      as (p' & -> & Hlen & Hf & Hroot & Hnum & _).
    by apply wf_with_roots.
  - by rewrite (find_unknown _ _ Hk).
Qed.

Lemma wf_union a b s : wf s → wf (fst (union a b s)).
Proof.
  intros Hwf.
  destruct (_identifiers s !! a) as [ia |] eqn:Ha;
    [| by rewrite union_unknown by (by left)].
  destruct (_identifiers s !! b) as [ib |] eqn:Hb;
    [| by rewrite union_unknown by (by right)].
  destruct (wf_slot_root _ _ _ Hwf Ha) as (_ & r1 & H1).
  destruct (wf_slot_root _ _ _ Hwf Hb) as (_ & r2 & H2).
  by destruct (union_post s a b ia ib r1 r2 Hwf Ha Hb H1 H2)
    as (s1 & child & parent & -> & Hwf1 & _).
Qed.

Lemma wf_slot_node s k i : wf s → _identifiers s !! k = Some i → i < length (_nodes s).
Proof.
  intros Hwf Hk. destruct (wf_ids_node _ Hwf _ _ Hk) as (nd & Hnd & _).
  by eapply lookup_lt_Some.
Qed.

Lemma wf_connect a b s : wf s → wf (fst (connect a b s)).
Proof.
  intros Hwf.
  destruct (_identifiers s !! a) as [ia |] eqn:Ha;
    [| by rewrite connect_unknown by (by left)].
  destruct (_identifiers s !! b) as [ib |] eqn:Hb;
    [| by rewrite connect_unknown by (by right)].
  destruct (connect_run s a b ia ib Hwf Ha Hb)
    as (s1 & _ & Hwf1 & Hnodes & Hids & ->).
  simpl. rewrite <- Hids in Ha, Hb.
  apply wf_record_edge; [done | by eapply wf_slot_node | by eapply wf_slot_node].
Qed.

Lemma wf_get_node k s : wf s → wf (fst (get_node k s)).
Proof.
  intros Hwf. destruct (_identifiers s !! k) as [i |] eqn:Hk.
  - by rewrite (get_node_run _ _ _ Hwf Hk).
  - by rewrite (get_node_unknown _ _ Hk).
Qed.

Lemma wf_exec c s : wf s → wf (exec c s).
Proof.
  intros Hwf. destruct c; simpl;
    auto using wf_add, wf_find, wf_union, wf_connect, wf_get_node.
Qed.

Lemma run_snoc tr c : run (tr ++ [c]) = exec c (run tr).
Proof. unfold run. by rewrite foldl_app. Qed.

Lemma wf_run tr : wf (run tr).
Proof.
  induction tr as [| c tr IH] using rev_ind; [apply wf_init |].
  rewrite run_snoc. by apply wf_exec.
Qed.

Lemma reachable_wf s : reachable s → wf s.
Proof. intros [tr ->]. apply wf_run. Qed.

Lemma reachable_init : reachable init.
Proof. by exists []. Qed.

Lemma reachable_exec c s : reachable s → reachable (exec c s).
Proof. intros [tr ->]. exists (tr ++ [c]). by rewrite run_snoc. Qed.

(** The comparison [find(x) == find(y)] decides whether the two slots
    have the same root, and changes no root. *)
Lemma find_eq_run s x y ix iy rx ry :
  wf s →
  _identifiers s !! x = Some ix → _identifiers s !! y = Some iy →
  root_of (_roots s) ix rx → root_of (_roots s) iy ry →
  ∃ p', find_eq x y s = (with_roots p' s, Ret (bool_decide (rx = ry))) ∧
        length p' = length (_roots s) ∧
        forest p' ∧
        (∀ j r', root_of p' j r' ↔ root_of (_roots s) j r') ∧
        num_roots p' = num_roots (_roots s).
Proof.
  intros Hwf Hx Hy Hrx Hry.
  destruct (find_run s x ix rx Hwf Hx Hrx)
    as (p1 & Hrun1 & Hlen1 & Hf1 & Hroot1 & Hnum1 & _).
  assert (wf (with_roots p1 s)) as Hwf1 by (by apply wf_with_roots).
  destruct (find_run (with_roots p1 s) y iy ry Hwf1 Hy)
    as (p2 & Hrun2 & Hlen2 & Hf2 & Hroot2 & Hnum2 & _).
  { simpl. by apply Hroot1. }
  simpl in *. exists p2. unfold find_eq.
  rewrite (bind_Ret _ _ _ _ _ Hrun1), (bind_Ret _ _ _ _ _ Hrun2).
  split; [done |]. split; [congruence |]. split; [done |].
  split; [| congruence].
  intros j r'. by rewrite Hroot2, Hroot1.
Qed.

End Reachable.

(** * Properties of the public interface *)

Section Interface.

Implicit Types (p : list nat) (i j r g d : nat) (s : EquivalenceClasses).
Implicit Types (k a b x y : K) (tr : list call) (c : call).

Lemma contains_lookup k s : contains k s = true → ∃ i, _identifiers s !! k = Some i.
Proof. intros Hk. by apply bool_decide_eq_true in Hk as [i Hi]; exists i. Qed.

Lemma not_contains_lookup k s : contains k s = false → _identifiers s !! k = None.
Proof.
  intros Hk. apply bool_decide_eq_false in Hk.
  destruct (_identifiers s !! k) eqn:E; [| done]. destruct Hk. eauto.
Qed.

(** Two states with the same identifier index and the same roots
    answer every class comparison alike. *)
Lemma find_eq_same_roots s s' x y :
  wf s → wf s' →
  _identifiers s' = _identifiers s →
  (∀ j r, root_of (_roots s') j r ↔ root_of (_roots s) j r) →
  contains x s = true → contains y s = true →
  ∃ v, snd (find_eq x y s) = Ret v ∧ snd (find_eq x y s') = Ret v.
Proof.
  intros Hwf Hwf' Hids Hroot [ix Hx]%contains_lookup [iy Hy]%contains_lookup.
  destruct (wf_slot_root _ _ _ Hwf Hx) as (_ & rx & Hrx).
  destruct (wf_slot_root _ _ _ Hwf Hy) as (_ & ry & Hry).
  destruct (find_eq_run s x y ix iy rx ry Hwf Hx Hy Hrx Hry) as (p1 & -> & _).
  destruct (find_eq_run s' x y ix iy rx ry Hwf') as (p2 & -> & _);
    [congruence | congruence | by apply Hroot | by apply Hroot |].
  by exists (bool_decide (rx = ry)).
Qed.

(** C1. Merge monotonicity: for previously added [a] and [b], [union a b]
    returns; afterwards [find(a) == find(b)] is true; and [count] has
    dropped by exactly one, unless [find(a) == find(b)] was already
    true before the call, in which case [count] is unchanged. *)
Theorem union_merges s a b :
  reachable s → contains a s = true → contains b s = true →
  ∃ s' before,
    union a b s = (s', Ret tt) ∧
    snd (find_eq a b s) = Ret before ∧
    snd (find_eq a b s') = Ret true ∧
    count s' = (if before then count s else count s - 1)%Z.
Proof.
  intros Hwf%reachable_wf [ia Ha]%contains_lookup [ib Hb]%contains_lookup.
  destruct (wf_slot_root _ _ _ Hwf Ha) as (_ & r1 & H1).
  destruct (wf_slot_root _ _ _ Hwf Hb) as (_ & r2 & H2).
  destruct (union_post s a b ia ib r1 r2 Hwf Ha Hb H1 H2)
    as (s1 & child & parent & Hrun & Hwf1 & _ & Hids & Hcp & Hroot & Hcount).
  destruct (find_eq_run s a b ia ib r1 r2 Hwf Ha Hb H1 H2) as (p0 & Hbefore & _).
  exists s1, (bool_decide (r1 = r2)).
  split; [done |]. split; [by rewrite Hbefore |]. split.
  - rewrite <- Hids in Ha, Hb.
    assert (root_of (_roots s1) ia parent ∧ root_of (_roots s1) ib parent)
      as [H1' H2'].
    { clear Hcount. split; apply Hroot.
      - exists r1. split; [done |].
        destruct Hcp as [[-> ->] | [-> ->]];
          match goal with |- _ = if ?c then _ else _ => destruct c end;
          congruence.
      - exists r2. split; [done |].
        destruct Hcp as [[-> ->] | [-> ->]];
          match goal with |- _ = if ?c then _ else _ => destruct c end;
          congruence. }
    destruct (find_eq_run s1 a b ia ib parent parent Hwf1 Ha Hb H1' H2')
      as (p1 & -> & _).
    simpl. by rewrite bool_decide_eq_true_2.
  - unfold count. rewrite Hcount.
    destruct (decide (r1 = r2)).
    + by rewrite bool_decide_eq_true_2.
    + by rewrite bool_decide_eq_false_2.
Qed.

(** C2. In every state reached by a sequence of calls, [count] is the
    number of root slots, the slots [i] with [parent[i] == i]. *)
Theorem count_is_number_of_roots tr :
  count (run tr) = Z.of_nat (num_roots (_roots (run tr))).
Proof. apply wf_count, wf_run. Qed.

(** C3. [find] on a previously added identifier returns the root of
    its slot, reached by path halving: every slot the traversal visits
    gets its grandparent as parent and no other slot changes.  Class
    membership is untouched: [find(x) == find(y)] has the same value
    after the call as before, for all previously added [x] and [y]. *)
Theorem find_halves_path s k i :
  reachable s → _identifiers s !! k = Some i →
  ∃ p' r,
    find k s = (with_roots p' s, Ret r) ∧
    root_of (_roots s) i r ∧
    root_of p' i r ∧
    halved (_roots s) i p' ∧
    ∀ x y, contains x s = true → contains y s = true →
      ∃ v, snd (find_eq x y s) = Ret v ∧
           snd (find_eq x y (with_roots p' s)) = Ret v.
Proof.
  intros Hwf%reachable_wf Hk.
  destruct (wf_slot_root _ _ _ Hwf Hk) as (_ & r & Hr).
  destruct (find_run s k i r Hwf Hk Hr)
    as (p' & Hrun & Hlen & Hf & Hroot & Hnum & Hhalf).
  exists p', r. split; [done |]. split; [done |].
  split; [by apply Hroot |]. split; [done |].
  intros x y Hx Hy.
  by apply find_eq_same_roots; [| apply wf_with_roots | ..].
Qed.

End Interface.

Section Interface2.

Implicit Types (p : list nat) (i j r g d : nat) (s : EquivalenceClasses).
Implicit Types (k a b x y : K) (tr : list call) (c : call).

(** What a returning [find] returned. *)
Lemma find_returns_root s k r :
  wf s → snd (find k s) = Ret r →
  ∃ i, _identifiers s !! k = Some i ∧ root_of (_roots s) i r.
Proof.
  intros Hwf Hfind. destruct (_identifiers s !! k) as [i |] eqn:Hk;
    [| by rewrite (find_unknown _ _ Hk) in Hfind].
  destruct (wf_slot_root _ _ _ Hwf Hk) as (_ & r' & Hr).
  destruct (find_run s k i r' Hwf Hk Hr) as (p' & Hrun & _).
  rewrite Hrun in Hfind. simpl in Hfind. simplify_eq. by exists i.
Qed.

(** C4. Union by size: when [find] gives different roots for [a] and
    [b], [union a b] hangs the root whose class has fewer slots under
    the other one; with
    equally many slots the root of [b] is hung under the root of [a];
    the surviving root's size becomes the sum of the two sizes.  The
    size stored at a root is the number of slots of its class. *)
Theorem union_by_size s a b r1 r2 :
  reachable s →
  snd (find a s) = Ret r1 → snd (find b s) = Ret r2 → r1 ≠ r2 →
  ∃ s' m1 m2,
    class_members (_roots s) r1 m1 ∧ class_members (_roots s) r2 m2 ∧
    _sizes s !! r1 = Some (length m1) ∧ _sizes s !! r2 = Some (length m2) ∧
    union a b s = (s', Ret tt) ∧
    (if decide (length m1 < length m2)
     then _roots s' !! r1 = Some r2 ∧ _roots s' !! r2 = Some r2 ∧
          _sizes s' !! r2 = Some (length m1 + length m2)
     else _roots s' !! r2 = Some r1 ∧ _roots s' !! r1 = Some r1 ∧
          _sizes s' !! r1 = Some (length m1 + length m2)).
Proof.
  intros Hwf%reachable_wf Hfa Hfb Hne.
  destruct (find_returns_root s a r1 Hwf Hfa) as (ia & Ha & H1).
  destruct (find_returns_root s b r2 Hwf Hfb) as (ib & Hb & H2).
  destruct (union_run s a b ia ib r1 r2 Hwf Ha Hb H1 H2)
    as (p2 & Hlen & Hf & Hroot & Hnum & [[? _] | (_ & z1 & z2 & Hz1 & Hz2 & Hrun)]);
    [done |].
  destruct (wf_sizes _ Hwf r1 (root_of_is_root _ _ _ H1)) as (m1 & Hm1 & Hz1').
  destruct (wf_sizes _ Hwf r2 (root_of_is_root _ _ _ H2)) as (m2 & Hm2 & Hz2').
  assert (z1 = length m1) as -> by congruence.
  assert (z2 = length m2) as -> by congruence.
  assert (p2 !! r1 = Some r1) as Hp1 by (eapply root_of_is_root, Hroot, H1).
  assert (p2 !! r2 = Some r2) as Hp2 by (eapply root_of_is_root, Hroot, H2).
  pose proof (lookup_lt_Some _ _ _ Hp1) as Hlt1.
  pose proof (lookup_lt_Some _ _ _ Hp2) as Hlt2.
  pose proof (lookup_lt_Some _ _ _ Hz1) as Hlz1.
  pose proof (lookup_lt_Some _ _ _ Hz2) as Hlz2.
  eexists _, m1, m2. do 4 (split; [done |]). split; [exact Hrun |].
  destruct (decide (length m1 < length m2)); simpl.
  - rewrite list_lookup_insert_eq by done.
    rewrite list_lookup_insert_ne by done.
    rewrite list_lookup_insert_eq by done.
    split; [done |]. split; [done |]. f_equal. lia.
  - rewrite list_lookup_insert_eq by done.
    rewrite list_lookup_insert_ne by (by apply not_eq_sym).
    rewrite list_lookup_insert_eq by done. done.
Qed.

(** C6. A failing call leaves the object as it was.  On any object:
    [add] of a registered identifier, [find] and [get_node] of an
    unregistered one, and [union] and [connect] with an unregistered
    argument raise without having changed anything.  On a reachable
    object these are the only failures: whenever a call raises, the
    object is unchanged. *)
Theorem failure_changes_nothing s :
  (∀ k, contains k s = true → ∃ e, add k s = (s, Raise e)) ∧
  (∀ k, contains k s = false →
     (∃ e, find k s = (s, Raise e)) ∧ (∃ e, get_node k s = (s, Raise e))) ∧
  (∀ a b, contains a s = false ∨ contains b s = false →
     (∃ e, union a b s = (s, Raise e)) ∧ (∃ e, connect a b s = (s, Raise e))) ∧
  (reachable s → ∀ c, call_raised c s = true → exec c s = s).
Proof.
  split; [| split; [| split]].
  - intros k [i Hk]%contains_lookup. eexists. by apply (add_duplicate _ _ i).
  - intros k Hk%not_contains_lookup. split; eexists.
    + by apply find_unknown.
    + by apply get_node_unknown.
  - intros a b Hab.
    assert (_identifiers s !! a = None ∨ _identifiers s !! b = None) as Hab'.
    { destruct Hab as [Hk | Hk]; [left | right]; by apply not_contains_lookup. }
    split; eexists.
    + by apply union_unknown.
    + by apply connect_unknown.
  - intros Hwf%reachable_wf c Hc. destruct c as [k | k | a b | a b | k | | k];
      simpl in *; try done.
    + destruct (_identifiers s !! k) as [i |] eqn:Hk.
      * by rewrite (add_duplicate _ _ _ Hk).
      * rewrite (add_fresh _ _ Hk) in Hc. by apply bool_decide_eq_true in Hc as [? ?].
    + destruct (_identifiers s !! k) as [i |] eqn:Hk.
      * destruct (wf_slot_root _ _ _ Hwf Hk) as (_ & r & Hr).
        destruct (find_run s k i r Hwf Hk Hr) as (p' & Hrun & _).
        rewrite Hrun in Hc. by apply bool_decide_eq_true in Hc as [? ?].
      * by rewrite (find_unknown _ _ Hk).
    + destruct (_identifiers s !! a) as [ia |] eqn:Ha;
        [| by rewrite union_unknown by (by left)].
      destruct (_identifiers s !! b) as [ib |] eqn:Hb;
        [| by rewrite union_unknown by (by right)].
      destruct (wf_slot_root _ _ _ Hwf Ha) as (_ & r1 & H1).
      destruct (wf_slot_root _ _ _ Hwf Hb) as (_ & r2 & H2).
      destruct (union_post s a b ia ib r1 r2 Hwf Ha Hb H1 H2)
        as (s1 & child & parent & Hrun & _).
      rewrite Hrun in Hc. by apply bool_decide_eq_true in Hc as [? ?].
    + destruct (_identifiers s !! a) as [ia |] eqn:Ha;
        [| by rewrite connect_unknown by (by left)].
      destruct (_identifiers s !! b) as [ib |] eqn:Hb;
        [| by rewrite connect_unknown by (by right)].
      destruct (connect_run s a b ia ib Hwf Ha Hb) as (s1 & _ & _ & _ & _ & Hrun).
      rewrite Hrun in Hc. by apply bool_decide_eq_true in Hc as [? ?].
    + destruct (_identifiers s !! k) as [i |] eqn:Hk.
      * by rewrite (get_node_run _ _ _ Hwf Hk).
      * by rewrite (get_node_unknown _ _ Hk).
Qed.

(** C7, as the code has it.  [add] of a registered identifier raises
    [ValueError]; [union], [connect] and [get_node] with an
    unregistered identifier raise [ValueError] as well, so the two
    conditions have the same class and differ by their message only;
    [find] of an unregistered identifier raises the [KeyError] of its
    unchecked dictionary lookup. *)
Theorem error_kinds s dup unk other :
  contains dup s = true → contains unk s = false →
  raised_kind (add dup s) = Some KValueError ∧
  raised_kind (union unk other s) = Some KValueError ∧
  raised_kind (union other unk s) = Some KValueError ∧
  raised_kind (connect unk other s) = Some KValueError ∧
  raised_kind (connect other unk s) = Some KValueError ∧
  raised_kind (get_node unk s) = Some KValueError ∧
  raised_kind (find unk s) = Some KKeyError.
Proof.
  intros [i Hdup]%contains_lookup Hunk%not_contains_lookup.
  rewrite (add_duplicate _ _ _ Hdup).
  rewrite !union_unknown, !connect_unknown by auto.
  by rewrite (get_node_unknown _ _ Hunk), (find_unknown _ _ Hunk).
Qed.

End Interface2.

Section Interface3.

Implicit Types (p : list nat) (i j r g d : nat) (s : EquivalenceClasses).
Implicit Types (k a b x y : K) (tr : list call) (c : call).

(** Walking [k] links up a path stays on the path. *)
Lemma ancestor_path p (n : nat) :
  ∀ i j r d, path p i r d → ancestor p n i = Some j → path p j r (d - n).
Proof.
  induction n as [| k IH]; intros i j r d Hp Hk; simpl in Hk.
  - simplify_eq. by rewrite Nat.sub_0_r.
  - destruct (p !! i) as [q |] eqn:Hi; simpl in Hk; [| done].
    destruct (path_parent _ _ _ _ _ Hp Hi) as (d' & Hq & Hle & Hd).
    destruct (decide (i = q)) as [Heq | Hne].
    + subst q. inversion Hp as [? Hr | ? ? ? ? Hi' Hne' ?]; subst; [| congruence].
      replace (0 - S k) with (0 - k) by lia. by apply (IH r).
    + specialize (Hd Hne). subst d. simpl. by apply (IH q).
Qed.

Lemma forest_no_cycle p i : forest p → ¬ on_cycle p i.
Proof.
  intros Hf (Hnr & n & Hk & Hanc).
  destruct (decide (i < length p)) as [Hi | Hi].
  - destruct (Hf i Hi) as (r & d & Hd).
    pose proof (ancestor_path _ _ _ _ _ _ Hd Hanc) as Hd'.
    destruct (path_det _ _ _ _ _ _ Hd Hd') as [_ Heq].
    assert (d = 0) as -> by lia. inversion Hd; subst. done.
  - destruct n as [| n]; [lia |]. simpl in Hanc.
    by rewrite lookup_ge_None_2 in Hanc by lia.
Qed.

(** C8. In every state reached by a sequence of calls the parent
    array is a forest: from every slot the parent links lead to a
    root, and no slot lies on a cycle.  Hence the loop of [_find_root]
    terminates from every slot: it returns the root within as many
    iterations as there are slots, and with any larger number of
    iterations allowed the result is the same. *)
Theorem parent_forest_and_termination tr :
  forest (_roots (run tr)) ∧
  (∀ i, ¬ on_cycle (_roots (run tr)) i) ∧
  (∀ i, i < length (_roots (run tr)) →
     ∃ s' r, _find_root i (run tr) = (s', Ret r) ∧
             root_of (_roots (run tr)) i r ∧
             ∀ fuel, length (_roots (run tr)) ≤ fuel →
                     find_root_loop fuel i (run tr) = (s', Ret r)).
Proof.
  pose proof (wf_run tr) as Hwf. pose proof (wf_forest _ Hwf) as Hf.
  split; [done |]. split; [intros i; by apply forest_no_cycle |].
  intros i Hi. destruct (Hf i Hi) as (r & Hr).
  destruct (find_root_spec _ i r Hf Hr) as (p' & Hrun & _).
  exists (with_roots p' (run tr)), r. split; [done |]. split; [done |].
  intros fuel Hfuel. unfold _find_root in Hrun. rewrite <- Hrun.
  apply find_root_loop_fuel_mono; [done |]. by rewrite Hrun.
Qed.

(** C9. A self-loop: [connect a a] on a previously added [a] returns,
    leaves [count] and every class comparison as they were, and puts
    the node of [a] into its own [destinations] and [sources]. *)
Theorem connect_self_loop s a :
  reachable s → contains a s = true →
  ∃ s' ia,
    connect a a s = (s', Ret tt) ∧
    count s' = count s ∧
    (∀ x y, contains x s = true → contains y s = true →
       ∃ v, snd (find_eq x y s) = Ret v ∧ snd (find_eq x y s') = Ret v) ∧
    get_node a s' = (s', Ret ia) ∧
    has_edge s' ia ia ∧ has_back_edge s' ia ia.
Proof.
  intros Hwf%reachable_wf [ia Ha]%contains_lookup.
  destruct (wf_slot_root _ _ _ Hwf Ha) as (_ & r & Hr).
  destruct (connect_run s a a ia ia Hwf Ha Ha)
    as (s1 & Hunion & Hwf1 & Hnodes & Hids & Hrun).
  destruct (union_post s a a ia ia r r Hwf Ha Ha Hr Hr)
    as (s1' & child & parent & Hunion' & _ & _ & _ & Hcp & Hroot & Hcount).
  assert (s1' = s1) as -> by congruence.
  rewrite decide_True in Hcount by done.
  assert (ia < length (_nodes s1)) as Hia
    by (eapply wf_slot_node; [done | by rewrite Hids]).
  assert (wf (with_nodes (record_edge ia ia (_nodes s1)) s1)) as Hwf'
    by (by apply wf_record_edge).
  eexists _, ia. split; [exact Hrun |]. split; [done |]. split; [| split; [| split]].
  - intros x y Hx Hy. apply find_eq_same_roots; try done.
    intros j r'. simpl. rewrite Hroot. split.
    + intros (r0 & Hj & ->). destruct Hcp as [[-> ->] | [-> ->]];
        by case_decide; subst.
    + intros Hj. exists r'. split; [done |].
      destruct Hcp as [[-> ->] | [-> ->]]; by case_decide.
  - apply get_node_run; [done |]. simpl. by rewrite Hids.
  - apply has_edge_record_edge; [done | by right].
  - apply has_back_edge_record_edge; [done | by right].
Qed.

Lemma merged_root_eq r1 r2 child parent rx ry :
  (child = r1 ∧ parent = r2) ∨ (child = r2 ∧ parent = r1) →
  (if decide (rx = child) then parent else rx) =
  (if decide (ry = child) then parent else ry) ↔
  rx = ry ∨ ((rx = r1 ∨ rx = r2) ∧ (ry = r1 ∨ ry = r2)).
Proof.
  intros [[-> ->] | [-> ->]];
    destruct (decide (rx = _)), (decide (ry = _)); subst;
    intuition congruence.
Qed.

(** C10. [union] is commutative up to the partition: [union a b] and
    [union b a], run on the same reachable object with previously
    added [a] and [b], give the same [count] and the same value of
    [find(x) == find(y)] for all previously added [x] and [y]. *)
Theorem union_commutes s a b :
  reachable s → contains a s = true → contains b s = true →
  ∃ s1 s2,
    union a b s = (s1, Ret tt) ∧ union b a s = (s2, Ret tt) ∧
    count s1 = count s2 ∧
    ∀ x y, contains x s = true → contains y s = true →
      ∃ v, snd (find_eq x y s1) = Ret v ∧ snd (find_eq x y s2) = Ret v.
Proof.
  intros Hwf%reachable_wf [ia Ha]%contains_lookup [ib Hb]%contains_lookup.
  destruct (wf_slot_root _ _ _ Hwf Ha) as (_ & r1 & H1).
  destruct (wf_slot_root _ _ _ Hwf Hb) as (_ & r2 & H2).
  destruct (union_post s a b ia ib r1 r2 Hwf Ha Hb H1 H2)
    as (s1 & c1 & t1 & Hrun1 & Hwf1 & _ & Hids1 & Hcp1 & Hroot1 & Hcount1).
  destruct (union_post s b a ib ia r2 r1 Hwf Hb Ha H2 H1)
    as (s2 & c2 & t2 & Hrun2 & Hwf2 & _ & Hids2 & Hcp2 & Hroot2 & Hcount2).
  exists s1, s2. split; [done |]. split; [done |]. split.
  - unfold count. rewrite Hcount1, Hcount2.
    destruct (decide (r1 = r2)), (decide (r2 = r1)); congruence.
  - intros x y [ix Hx]%contains_lookup [iy Hy]%contains_lookup.
    destruct (wf_slot_root _ _ _ Hwf Hx) as (_ & rx & Hrx).
    destruct (wf_slot_root _ _ _ Hwf Hy) as (_ & ry & Hry).
    destruct (find_eq_run s1 x y ix iy
                (if decide (rx = c1) then t1 else rx)
                (if decide (ry = c1) then t1 else ry) Hwf1)
      as (p1 & -> & _); [congruence | congruence | apply Hroot1; eauto ..|].
    destruct (find_eq_run s2 x y ix iy
                (if decide (rx = c2) then t2 else rx)
                (if decide (ry = c2) then t2 else ry) Hwf2)
      as (p2 & -> & _); [congruence | congruence | apply Hroot2; eauto ..|].
    simpl. eexists. split; [done |]. f_equal. apply bool_decide_ext.
    rewrite (merged_root_eq r1 r2 c1 t1) by done.
    rewrite (merged_root_eq r2 r1 c2 t2) by done. tauto.
Qed.

End Interface3.

(** * Edges and the history of calls *)

Section History.

Implicit Types (p : list nat) (i j r g d : nat) (s : EquivalenceClasses).
Implicit Types (k a b x y : K) (tr : list call) (c : call).

Lemma has_edge_add k s i j : has_edge (fst (add k s)) i j ↔ has_edge s i j.
Proof.
  destruct (_identifiers s !! k) as [n |] eqn:Hk;
    [by rewrite (add_duplicate _ _ _ Hk) |].
  rewrite (add_fresh _ _ Hk). unfold has_edge. simpl. split.
  - intros (nd & Hnd & Hj). apply snoc_lookup_inv in Hnd as [Hnd | [_ ->]].
    + by exists nd.
    + simpl in Hj. by apply elem_of_empty in Hj.
  - intros (nd & Hnd & Hj). exists nd. split; [by apply lookup_app_l_Some | done].
Qed.

Lemma has_edge_nodes s s' i j :
  _nodes s' = _nodes s → has_edge s' i j ↔ has_edge s i j.
Proof. intros Hn. unfold has_edge. by rewrite Hn. Qed.

Lemma get_node_inv k s s' i :
  get_node k s = (s', Ret i) → s' = s ∧ _identifiers s !! k = Some i.
Proof.
  unfold get_node, contains. case_bool_decide as Hk; simpl; [| done].
  destruct Hk as [n Hk]. unfold bind, identifiers_get, nodes_get. rewrite Hk.
  destruct (_nodes s !! n); intros; by simplify_eq.
Qed.

Lemma wf_ids_inj s a b i :
  wf s → _identifiers s !! a = Some i → _identifiers s !! b = Some i → a = b.
Proof.
  intros Hwf Ha Hb.
  destruct (wf_ids_node _ Hwf _ _ Ha) as (nd & Hnd & <-).
  destruct (wf_ids_node _ Hwf _ _ Hb) as (nd' & Hnd' & <-). congruence.
Qed.

(** No call removes or moves an identifier. *)
Lemma exec_ids_mono c s k i :
  wf s → _identifiers s !! k = Some i → _identifiers (exec c s) !! k = Some i.
Proof.
  intros Hwf Hk. destruct c as [k' | k' | a b | a b | k' | | k']; simpl; try done.
  - destruct (_identifiers s !! k') as [n |] eqn:Hk';
      [by rewrite (add_duplicate _ _ _ Hk') |].
    rewrite (add_fresh _ _ Hk'). simpl.
    rewrite lookup_insert_ne; [done | congruence].
  - destruct (_identifiers s !! k') as [n |] eqn:Hk';
      [| by rewrite (find_unknown _ _ Hk')].
    destruct (wf_slot_root _ _ _ Hwf Hk') as (_ & r & Hr).
    by destruct (find_run s k' n r Hwf Hk' Hr) as (p' & -> & _).
  - destruct (_identifiers s !! a) as [ia |] eqn:Ha;
      [| by rewrite union_unknown by (by left)].
    destruct (_identifiers s !! b) as [ib |] eqn:Hb;
      [| by rewrite union_unknown by (by right)].
    destruct (connect_run s a b ia ib Hwf Ha Hb) as (s1 & -> & _ & _ & Hids & _).
    simpl. by rewrite Hids.
  - destruct (_identifiers s !! a) as [ia |] eqn:Ha;
      [| by rewrite connect_unknown by (by left)].
    destruct (_identifiers s !! b) as [ib |] eqn:Hb;
      [| by rewrite connect_unknown by (by right)].
    destruct (connect_run s a b ia ib Hwf Ha Hb) as (s1 & _ & _ & _ & Hids & ->).
    simpl. by rewrite Hids.
  - destruct (_identifiers s !! k') as [n |] eqn:Hk'.
    + by rewrite (get_node_run _ _ _ Hwf Hk').
    + by rewrite (get_node_unknown _ _ Hk').
Qed.

(** Only [connect] records an edge, and only the one it was asked for. *)
Lemma exec_edge c s i j :
  wf s → has_edge (exec c s) i j →
  has_edge s i j ∨
  ∃ a b, c = Connect a b ∧
         _identifiers s !! a = Some i ∧ _identifiers s !! b = Some j.
Proof.
  intros Hwf He. destruct c as [k' | k' | a b | a b | k' | | k']; simpl in He;
    try (by left).
  - left. by apply has_edge_add in He.
  - left. destruct (_identifiers s !! k') as [n |] eqn:Hk';
      [| by rewrite (find_unknown _ _ Hk') in He].
    destruct (wf_slot_root _ _ _ Hwf Hk') as (_ & r & Hr).
    destruct (find_run s k' n r Hwf Hk' Hr) as (p' & Hrun & _).
    by rewrite Hrun in He.
  - left. destruct (_identifiers s !! a) as [ia |] eqn:Ha;
      [| by rewrite union_unknown in He by (by left)].
    destruct (_identifiers s !! b) as [ib |] eqn:Hb;
      [| by rewrite union_unknown in He by (by right)].
    destruct (connect_run s a b ia ib Hwf Ha Hb) as (s1 & Hrun & _ & Hn & _).
    rewrite Hrun in He. by apply (has_edge_nodes s s1).
  - destruct (_identifiers s !! a) as [ia |] eqn:Ha;
      [| left; by rewrite connect_unknown in He by (by left)].
    destruct (_identifiers s !! b) as [ib |] eqn:Hb;
      [| left; by rewrite connect_unknown in He by (by right)].
    destruct (connect_run s a b ia ib Hwf Ha Hb)
      as (s1 & _ & Hwf1 & Hn & Hids & Hrun).
    rewrite Hrun in He. simpl in He.
    apply has_edge_record_edge in He as [He | [-> ->]].
    + left. by apply (has_edge_nodes s s1).
    + right. by exists a, b.
    + eapply wf_slot_node; [done | by rewrite Hids].
  - left. destruct (_identifiers s !! k') as [n |] eqn:Hk'.
    + by rewrite (get_node_run _ _ _ Hwf Hk') in He.
    + by rewrite (get_node_unknown _ _ Hk') in He.
Qed.

(** Every recorded edge was asked for by a [connect] call. *)
Lemma edge_history tr i j :
  has_edge (run tr) i j →
  ∃ a b, Connect a b ∈ tr ∧
         _identifiers (run tr) !! a = Some i ∧
         _identifiers (run tr) !! b = Some j.
Proof.
  induction tr as [| c tr IH] using rev_ind.
  - intros (nd & Hnd & _). simpl in Hnd. by rewrite lookup_nil in Hnd.
  - rewrite run_snoc. intros He. pose proof (wf_run tr) as Hwf.
    apply exec_edge in He as [He | (a & b & -> & Ha & Hb)]; [| | done].
    + destruct (IH He) as (a & b & Hin & Ha & Hb). exists a, b.
      split; [apply elem_of_app; by left |].
      split; by apply exec_ids_mono.
    + exists a, b. split; [apply elem_of_app; right; by apply list_elem_of_singleton |].
      split; by apply exec_ids_mono.
Qed.

(** C5. Edge symmetry.  After [connect a b] on previously added [a]
    and [b], the node of [b] is in the [destinations] of [get_node a]
    and the node of [a] is in the [sources] of [get_node b].  For
    distinct [a] and [b], the node of [a] is in the [destinations] of
    [get_node b] only if [connect b a] is among the calls made.  In
    every reachable state, [j] is in the [destinations] of node [i]
    exactly when [i] is in the [sources] of node [j]. *)
Theorem edge_symmetry tr :
  (∀ a b, contains a (run tr) = true → contains b (run tr) = true →
     ∃ s' ia ib,
       connect a b (run tr) = (s', Ret tt) ∧
       get_node a s' = (s', Ret ia) ∧ get_node b s' = (s', Ret ib) ∧
       has_edge s' ia ib ∧ has_back_edge s' ib ia) ∧
  (∀ a b ia ib, a ≠ b →
     get_node a (run tr) = (run tr, Ret ia) →
     get_node b (run tr) = (run tr, Ret ib) →
     has_edge (run tr) ib ia → Connect b a ∈ tr) ∧
  (∀ i j, has_edge (run tr) i j ↔ has_back_edge (run tr) j i).
Proof.
  pose proof (wf_run tr) as Hwf. split; [| split].
  - intros a b [ia Ha]%contains_lookup [ib Hb]%contains_lookup.
    destruct (connect_run _ a b ia ib Hwf Ha Hb)
      as (s1 & _ & Hwf1 & Hn & Hids & Hrun).
    assert (ia < length (_nodes s1)) as Hia
      by (eapply wf_slot_node; [done | by rewrite Hids]).
    assert (ib < length (_nodes s1)) as Hib
      by (eapply wf_slot_node; [done | by rewrite Hids]).
    assert (wf (with_nodes (record_edge ia ib (_nodes s1)) s1)) as Hwf'
      by (by apply wf_record_edge).
    eexists _, ia, ib. split; [exact Hrun |].
    split; [apply get_node_run; [done | simpl; by rewrite Hids] |].
    split; [apply get_node_run; [done | simpl; by rewrite Hids] |].
    split.
    + apply has_edge_record_edge; [done | by right].
    + apply has_back_edge_record_edge; [done | by right].
  - intros a b ia ib _ [_ Ha]%get_node_inv [_ Hb]%get_node_inv He.
    destruct (edge_history _ _ _ He) as (b' & a' & Hin & Hb' & Ha').
    by rewrite (wf_ids_inj _ _ _ _ Hwf Ha Ha'), (wf_ids_inj _ _ _ _ Hwf Hb Hb').
  - apply (wf_edge_sym _ Hwf).
Qed.

End History.

(** * Further properties: how the classes evolve *)

Section Classes.

Implicit Types (p : list nat) (i j r g d : nat) (s : EquivalenceClasses).
Implicit Types (k a b x y z : K) (tr : list call) (c : call).

(** What a class comparison that returned has compared. *)
Lemma find_eq_inv s x y v :
  wf s → snd (find_eq x y s) = Ret v →
  ∃ ix iy rx ry,
    _identifiers s !! x = Some ix ∧ _identifiers s !! y = Some iy ∧
    root_of (_roots s) ix rx ∧ root_of (_roots s) iy ry ∧
    v = bool_decide (rx = ry).
Proof.
  intros Hwf Hv. destruct (_identifiers s !! x) as [ix |] eqn:Hx.
  2:{ unfold find_eq in Hv.
      by rewrite (bind_Raise _ _ _ _ _ (find_unknown _ _ Hx)) in Hv. }
  destruct (wf_slot_root _ _ _ Hwf Hx) as (_ & rx & Hrx).
  destruct (_identifiers s !! y) as [iy |] eqn:Hy.
  - destruct (wf_slot_root _ _ _ Hwf Hy) as (_ & ry & Hry).
    destruct (find_eq_run s x y ix iy rx ry Hwf Hx Hy Hrx Hry) as (p' & Hrun & _).
    rewrite Hrun in Hv. simpl in Hv. simplify_eq.
    by exists ix, iy, rx, ry.
  - destruct (find_run s x ix rx Hwf Hx Hrx) as (p1 & Hrun1 & _).
    unfold find_eq in Hv. rewrite (bind_Ret _ _ _ _ _ Hrun1) in Hv.
    by rewrite (bind_Raise _ _ _ _ _ (find_unknown (with_roots p1 s) y Hy)) in Hv.
Qed.

Lemma find_eq_same_root s x y ix iy r :
  wf s →
  _identifiers s !! x = Some ix → _identifiers s !! y = Some iy →
  root_of (_roots s) ix r → root_of (_roots s) iy r →
  snd (find_eq x y s) = Ret true.
Proof.
  intros Hwf Hx Hy Hrx Hry.
  destruct (find_eq_run s x y ix iy r r Hwf Hx Hy Hrx Hry) as (p' & -> & _).
  simpl. by rewrite bool_decide_eq_true_2.
Qed.

(** [union] of registered identifiers maps old roots to new roots and
    gives its two arguments a common root. *)
Lemma union_roots s a b ia ib :
  wf s →
  _identifiers s !! a = Some ia → _identifiers s !! b = Some ib →
  ∃ s1 (f : nat → nat) r,
    union a b s = (s1, Ret tt) ∧
    (∀ j r0, root_of (_roots s) j r0 → root_of (_roots s1) j (f r0)) ∧
    root_of (_roots s1) ia r ∧ root_of (_roots s1) ib r.
Proof.
  intros Hwf Ha Hb.
  destruct (wf_slot_root _ _ _ Hwf Ha) as (_ & r1 & H1).
  destruct (wf_slot_root _ _ _ Hwf Hb) as (_ & r2 & H2).
  destruct (union_post s a b ia ib r1 r2 Hwf Ha Hb H1 H2)
    as (s1 & child & parent & Hrun & _ & _ & _ & Hcp & Hroot & _).
  exists s1, (λ r0, if decide (r0 = child) then parent else r0), parent.
  split; [done |]. split; [| split].
  - intros j r0 Hj. apply Hroot. by exists r0.
  - apply Hroot. exists r1. split; [done |].
    destruct Hcp as [[-> ->] | [-> ->]];
      match goal with |- _ = if ?c then _ else _ => destruct c end; congruence.
  - apply Hroot. exists r2. split; [done |].
    destruct Hcp as [[-> ->] | [-> ->]];
      match goal with |- _ = if ?c then _ else _ => destruct c end; congruence.
Qed.

(** Every call maps old roots to new roots: slots that shared a root
    before share one afterwards. *)
Lemma exec_roots c s :
  wf s →
  ∃ f : nat → nat,
    ∀ j r0, root_of (_roots s) j r0 → root_of (_roots (exec c s)) j (f r0).
Proof.
  intros Hwf. destruct c as [k | k | a b | a b | k | | k]; simpl;
    try (by exists id).
  - exists id. intros j r0 Hj. simpl.
    destruct (_identifiers s !! k) as [n |] eqn:Hk;
      [by rewrite (add_duplicate _ _ _ Hk) |].
    rewrite (add_fresh _ _ Hk). simpl.
    apply (root_of_snoc _ (wf_forest _ Hwf)). by left.
  - exists id. intros j r0 Hj. simpl.
    destruct (_identifiers s !! k) as [n |] eqn:Hk;
      [| by rewrite (find_unknown _ _ Hk)].
    destruct (wf_slot_root _ _ _ Hwf Hk) as (_ & r & Hr).
    destruct (find_run s k n r Hwf Hk Hr) as (p' & -> & _ & _ & Hroot & _).
    by apply Hroot.
  - destruct (_identifiers s !! a) as [ia |] eqn:Ha;
      [| exists id; by rewrite union_unknown by (by left)].
    destruct (_identifiers s !! b) as [ib |] eqn:Hb;
      [| exists id; by rewrite union_unknown by (by right)].
    destruct (union_roots s a b ia ib Hwf Ha Hb) as (s1 & f & r & -> & Hf & _).
    by exists f.
  - destruct (_identifiers s !! a) as [ia |] eqn:Ha;
      [| exists id; by rewrite connect_unknown by (by left)].
    destruct (_identifiers s !! b) as [ib |] eqn:Hb;
      [| exists id; by rewrite connect_unknown by (by right)].
    destruct (union_roots s a b ia ib Hwf Ha Hb) as (s1 & f & r & Hun & Hf & _).
    destruct (connect_run s a b ia ib Hwf Ha Hb) as (s1' & Hun' & _ & _ & _ & ->).
    assert (s1' = s1) as -> by congruence. by exists f.
  - exists id. destruct (_identifiers s !! k) as [n |] eqn:Hk.
    + by rewrite (get_node_run _ _ _ Hwf Hk).
    + by rewrite (get_node_unknown _ _ Hk).
Qed.

(** X7. Classes only ever grow.  Once [find(x) == find(y)] is true on a
    reachable object it is true after every further call. *)
Theorem classes_never_split s c x y :
  reachable s →
  snd (find_eq x y s) = Ret true →
  snd (find_eq x y (exec c s)) = Ret true.
Proof.
  intros Hwf%reachable_wf Hxy.
  destruct (find_eq_inv s x y true Hwf Hxy)
    as (ix & iy & rx & ry & Hx & Hy & Hrx & Hry & Heq).
  symmetry in Heq. apply bool_decide_eq_true in Heq as <-.
  destruct (exec_roots c s Hwf) as (f & Hf).
  apply (find_eq_same_root _ x y ix iy (f rx));
    [by apply wf_exec | by apply exec_ids_mono | by apply exec_ids_mono
    | by apply Hf | by apply Hf].
Qed.

(** X8. Transitivity through edges.  After [connect a b] and then
    [connect b c] on previously added identifiers, all three are in one
    class although no edge joins [a] and [c]. *)
Theorem connect_transitive s a b z :
  reachable s →
  contains a s = true → contains b s = true → contains z s = true →
  let s2 := exec (Connect b z) (exec (Connect a b) s) in
  snd (find_eq a b s2) = Ret true ∧
  snd (find_eq b z s2) = Ret true ∧
  snd (find_eq a z s2) = Ret true.
Proof.
  intros Hwf%reachable_wf [ia Ha]%contains_lookup [ib Hb]%contains_lookup
    [ic Hc]%contains_lookup s2.
  set (s1 := exec (Connect a b) s) in *.
  assert (wf s1) as Hwf1 by (by apply wf_exec).
  assert (wf s2) as Hwf2 by (by apply wf_exec).
  assert (∃ r, root_of (_roots s1) ia r ∧ root_of (_roots s1) ib r)
    as (r & Hra & Hrb).
  { subst s1. simpl.
    destruct (union_roots s a b ia ib Hwf Ha Hb) as (u & f & r & Hun & _ & H1 & H2).
    destruct (connect_run s a b ia ib Hwf Ha Hb) as (u' & Hun' & _ & _ & _ & ->).
    assert (u' = u) as -> by congruence. by exists r. }
  pose proof (exec_ids_mono (Connect a b) s _ _ Hwf Ha) as Ha1.
  pose proof (exec_ids_mono (Connect a b) s _ _ Hwf Hb) as Hb1.
  pose proof (exec_ids_mono (Connect a b) s _ _ Hwf Hc) as Hc1.
  fold s1 in Ha1, Hb1, Hc1.
  assert (∃ f r', (∀ j r0, root_of (_roots s1) j r0 → root_of (_roots s2) j (f r0)) ∧
            root_of (_roots s2) ib r' ∧ root_of (_roots s2) ic r')
    as (f & r' & Hf & Hrb2 & Hrc2).
  { subst s2. simpl.
    destruct (union_roots s1 b z ib ic Hwf1 Hb1 Hc1)
      as (u & f & r' & Hun & Hf & H1 & H2).
    destruct (connect_run s1 b z ib ic Hwf1 Hb1 Hc1) as (u' & Hun' & _ & _ & _ & ->).
    assert (u' = u) as -> by congruence. by exists f, r'. }
  pose proof (exec_ids_mono (Connect b z) s1 _ _ Hwf1 Ha1) as Ha2.
  pose proof (exec_ids_mono (Connect b z) s1 _ _ Hwf1 Hb1) as Hb2.
  pose proof (exec_ids_mono (Connect b z) s1 _ _ Hwf1 Hc1) as Hc2.
  fold s2 in Ha2, Hb2, Hc2.
  assert (f r = r') as Hfr by (eapply root_of_det; [by apply Hf | done]).
  assert (root_of (_roots s2) ia r') as Hra2 by (rewrite <- Hfr; by apply Hf).
  split; [| split]; by eapply find_eq_same_root.
Qed.

End Classes.

Section Partition.

Implicit Types (p : list nat) (i j r g d : nat) (s : EquivalenceClasses).
Implicit Types (k a b x y z : K) (tr : list call) (c : call).

(** X5. [union] merges the classes of its two arguments and nothing
    else.  Afterwards [x] and [y] are in one class exactly when they
    were before, or when one was with [a] and the other with [b]. *)
Theorem union_merges_exactly s a b x y :
  reachable s →
  contains a s = true → contains b s = true →
  contains x s = true → contains y s = true →
  ∃ s' xy xa xb ya yb,
    union a b s = (s', Ret tt) ∧
    snd (find_eq x y s) = Ret xy ∧
    snd (find_eq x a s) = Ret xa ∧ snd (find_eq x b s) = Ret xb ∧
    snd (find_eq y a s) = Ret ya ∧ snd (find_eq y b s) = Ret yb ∧
    snd (find_eq x y s') = Ret (xy || (xa && yb) || (xb && ya)).
Proof.
  intros Hwf%reachable_wf [ia Ha]%contains_lookup [ib Hb]%contains_lookup
    [ix Hx]%contains_lookup [iy Hy]%contains_lookup.
  destruct (wf_slot_root _ _ _ Hwf Ha) as (_ & r1 & H1).
  destruct (wf_slot_root _ _ _ Hwf Hb) as (_ & r2 & H2).
  destruct (wf_slot_root _ _ _ Hwf Hx) as (_ & rx & Hrx).
  destruct (wf_slot_root _ _ _ Hwf Hy) as (_ & ry & Hry).
  destruct (union_post s a b ia ib r1 r2 Hwf Ha Hb H1 H2)
    as (s1 & child & parent & Hrun & Hwf1 & _ & Hids & Hcp & Hroot & _).
  destruct (find_eq_run s x y ix iy rx ry Hwf Hx Hy Hrx Hry) as (? & Hxy & _).
  destruct (find_eq_run s x a ix ia rx r1 Hwf Hx Ha Hrx H1) as (? & Hxa & _).
  destruct (find_eq_run s x b ix ib rx r2 Hwf Hx Hb Hrx H2) as (? & Hxb & _).
  destruct (find_eq_run s y a iy ia ry r1 Hwf Hy Ha Hry H1) as (? & Hya & _).
  destruct (find_eq_run s y b iy ib ry r2 Hwf Hy Hb Hry H2) as (? & Hyb & _).
  destruct (find_eq_run s1 x y ix iy
              (if decide (rx = child) then parent else rx)
              (if decide (ry = child) then parent else ry) Hwf1)
    as (? & Hxy' & _); [congruence | congruence | apply Hroot; eauto ..|].
  eexists s1, _, _, _, _, _. split; [done |].
  rewrite Hxy, Hxa, Hxb, Hya, Hyb, Hxy'. simpl. do 5 (split; [done |]).
  f_equal. rewrite <- !bool_decide_and, <- !bool_decide_or.
  apply bool_decide_ext. rewrite (merged_root_eq r1 r2 child parent) by done.
  intuition congruence.
Qed.

(** X6. Union idempotence.  Repeating a [union] that has just returned
    changes neither [count] nor any class comparison. *)
Theorem union_idempotent s a b :
  reachable s → contains a s = true → contains b s = true →
  ∃ s1 s2,
    union a b s = (s1, Ret tt) ∧ union a b s1 = (s2, Ret tt) ∧
    count s2 = count s1 ∧
    ∀ x y, contains x s = true → contains y s = true →
      ∃ v, snd (find_eq x y s1) = Ret v ∧ snd (find_eq x y s2) = Ret v.
Proof.
  intros Hwf%reachable_wf [ia Ha]%contains_lookup [ib Hb]%contains_lookup.
  destruct (wf_slot_root _ _ _ Hwf Ha) as (_ & r1 & H1).
  destruct (wf_slot_root _ _ _ Hwf Hb) as (_ & r2 & H2).
  destruct (union_post s a b ia ib r1 r2 Hwf Ha Hb H1 H2)
    as (s1 & child & parent & Hrun & Hwf1 & _ & Hids & Hcp & Hroot & _).
  destruct (union_roots s a b ia ib Hwf Ha Hb) as (s1' & f & r & Hrun' & _ & Hra & Hrb).
  assert (s1' = s1) as -> by congruence.
  rewrite <- Hids in Ha, Hb.
  destruct (union_post s1 a b ia ib r r Hwf1 Ha Hb Hra Hrb)
    as (s2 & child2 & parent2 & Hrun2 & Hwf2 & _ & Hids2 & Hcp2 & Hroot2 & Hcount2).
  rewrite decide_True in Hcount2 by done.
  exists s1, s2. split; [done |]. split; [done |]. split; [done |].
  intros x y Hx Hy. apply find_eq_same_roots; try done.
  - intros j r'. rewrite Hroot2. split.
    + intros (r0 & Hj & ->). destruct Hcp2 as [[-> ->] | [-> ->]];
        by case_decide; subst.
    + intros Hj. exists r'. split; [done |].
      destruct Hcp2 as [[-> ->] | [-> ->]]; by case_decide.
  - unfold contains in *. by rewrite Hids.
  - unfold contains in *. by rewrite Hids.
Qed.

(** The two ends of a recorded edge have the same root. *)
Lemma edge_same_root tr i j :
  has_edge (run tr) i j →
  ∃ r, root_of (_roots (run tr)) i r ∧ root_of (_roots (run tr)) j r.
Proof.
  induction tr as [| c tr IH] using rev_ind.
  - intros (nd & Hnd & _). simpl in Hnd. by rewrite lookup_nil in Hnd.
  - rewrite run_snoc. intros He. pose proof (wf_run tr) as Hwf.
    apply exec_edge in He as [He | (a & b & -> & Ha & Hb)]; [| | done].
    + destruct (IH He) as (r & Hi & Hj).
      destruct (exec_roots c _ Hwf) as (f & Hf).
      exists (f r). split; by apply Hf.
    + simpl.
      destruct (union_roots _ a b i j Hwf Ha Hb) as (u & f & r & Hun & _ & H1 & H2).
      destruct (connect_run _ a b i j Hwf Ha Hb) as (u' & Hun' & _ & _ & _ & ->).
      assert (u' = u) as -> by congruence. by exists r.
Qed.

(** X9. The class structure covers the edge graph.  In every state
    reached by a sequence of calls, if the node of [b] is in the
    [destinations] of the node of [a], then [find(a) == find(b)]. *)
Theorem edge_ends_share_class tr a b ia ib :
  get_node a (run tr) = (run tr, Ret ia) →
  get_node b (run tr) = (run tr, Ret ib) →
  has_edge (run tr) ia ib →
  snd (find_eq a b (run tr)) = Ret true.
Proof.
  intros [_ Ha]%get_node_inv [_ Hb]%get_node_inv He.
  destruct (edge_same_root _ _ _ He) as (r & Hra & Hrb).
  by apply (find_eq_same_root _ a b ia ib r); [apply wf_run | ..].
Qed.

End Partition.

(** * Further properties: identifiers, slots and nodes *)

Section Registry.

Implicit Types (p : list nat) (i j r g d : nat) (s : EquivalenceClasses).
Implicit Types (k a b x y z : K) (tr : list call) (c : call).

(** Only a successful [add] changes the identifier index and the
    number of slots. *)
Lemma exec_identifiers c s :
  wf s →
  _identifiers (exec c s) =
    match c with
    | Add k => if contains k s then _identifiers s
               else <[k := length (_roots s)]> (_identifiers s)
    | _ => _identifiers s
    end.
Proof.
  intros Hwf. destruct c as [k | k | a b | a b | k | | k]; simpl; try done.
  - destruct (_identifiers s !! k) as [n |] eqn:Hk.
    + by rewrite (add_duplicate _ _ _ Hk), (contains_true _ _ _ Hk).
    + by rewrite (add_fresh _ _ Hk), (contains_false _ _ Hk).
  - destruct (_identifiers s !! k) as [n |] eqn:Hk;
      [| by rewrite (find_unknown _ _ Hk)].
    destruct (wf_slot_root _ _ _ Hwf Hk) as (_ & r & Hr).
    by destruct (find_run s k n r Hwf Hk Hr) as (p' & -> & _).
  - destruct (_identifiers s !! a) as [ia |] eqn:Ha;
      [| by rewrite union_unknown by (by left)].
    destruct (_identifiers s !! b) as [ib |] eqn:Hb;
      [| by rewrite union_unknown by (by right)].
    by destruct (connect_run s a b ia ib Hwf Ha Hb) as (s1 & -> & _ & _ & Hids & _).
  - destruct (_identifiers s !! a) as [ia |] eqn:Ha;
      [| by rewrite connect_unknown by (by left)].
    destruct (_identifiers s !! b) as [ib |] eqn:Hb;
      [| by rewrite connect_unknown by (by right)].
    by destruct (connect_run s a b ia ib Hwf Ha Hb) as (s1 & _ & _ & _ & Hids & ->).
  - destruct (_identifiers s !! k) as [n |] eqn:Hk.
    + by rewrite (get_node_run _ _ _ Hwf Hk).
    + by rewrite (get_node_unknown _ _ Hk).
Qed.

Lemma exec_length c s :
  wf s →
  length (_roots (exec c s)) =
    match c with
    | Add k => if contains k s then length (_roots s) else S (length (_roots s))
    | _ => length (_roots s)
    end.
Proof.
  intros Hwf. destruct c as [k | k | a b | a b | k | | k]; simpl; try done.
  - destruct (_identifiers s !! k) as [n |] eqn:Hk.
    + by rewrite (add_duplicate _ _ _ Hk), (contains_true _ _ _ Hk).
    + rewrite (add_fresh _ _ Hk), (contains_false _ _ Hk). simpl.
      rewrite length_app. simpl. lia.
  - destruct (_identifiers s !! k) as [n |] eqn:Hk;
      [| by rewrite (find_unknown _ _ Hk)].
    destruct (wf_slot_root _ _ _ Hwf Hk) as (_ & r & Hr).
    by destruct (find_run s k n r Hwf Hk Hr) as (p' & -> & Hlen & _).
  - pose proof (wf_union a b s Hwf) as Hwf'.
    rewrite <- (wf_nodes_len _ Hwf'), <- (wf_nodes_len _ Hwf).
    destruct (_identifiers s !! a) as [ia |] eqn:Ha;
      [| by rewrite union_unknown by (by left)].
    destruct (_identifiers s !! b) as [ib |] eqn:Hb;
      [| by rewrite union_unknown by (by right)].
    destruct (connect_run s a b ia ib Hwf Ha Hb) as (s1 & -> & _ & Hn & _).
    simpl. by rewrite Hn.
  - pose proof (wf_connect a b s Hwf) as Hwf'.
    rewrite <- (wf_nodes_len _ Hwf'), <- (wf_nodes_len _ Hwf).
    destruct (_identifiers s !! a) as [ia |] eqn:Ha;
      [| by rewrite connect_unknown by (by left)].
    destruct (_identifiers s !! b) as [ib |] eqn:Hb;
      [| by rewrite connect_unknown by (by right)].
    destruct (connect_run s a b ia ib Hwf Ha Hb) as (s1 & _ & _ & Hn & _ & ->).
    simpl. by rewrite record_edge_length, Hn.
  - destruct (_identifiers s !! k) as [n |] eqn:Hk.
    + by rewrite (get_node_run _ _ _ Hwf Hk).
    + by rewrite (get_node_unknown _ _ Hk).
Qed.

Lemma contains_exec c s k :
  wf s → contains k (exec c s) = true ↔ contains k s = true ∨ c = Add k.
Proof.
  intros Hwf. unfold contains at 1. rewrite (exec_identifiers c s Hwf).
  rewrite bool_decide_eq_true.
  destruct c as [k' | k' | a b | a b | k' | | k'];
    try (unfold contains; rewrite bool_decide_eq_true;
         split; [by left | by intros [? | ?]]).
  destruct (contains k' s) eqn:Hk'.
  - unfold contains in *. rewrite bool_decide_eq_true in *.
    split; [by left |]. intros [Hk | Heq]; [done |]. by simplify_eq.
  - rewrite lookup_insert_is_Some. unfold contains.
    rewrite bool_decide_eq_true. split.
    + intros [-> | [_ Hk]]; [by right | by left].
    + intros [Hk | Heq].
      * destruct (decide (k' = k)); [by left | by right].
      * left. by simplify_eq.
Qed.

(** X2. Membership is exactly "was added".  After any sequence of
    calls, [k in structure] holds if and only if [add k] is among the
    calls; nothing else registers an identifier and nothing removes
    one. *)
Theorem contains_iff_added tr k :
  contains k (run tr) = true ↔ Add k ∈ tr.
Proof.
  induction tr as [| c tr IH] using rev_ind.
  - split; [done |]. by intros ?%elem_of_nil.
  - rewrite run_snoc, (contains_exec _ _ _ (wf_run tr)), IH.
    rewrite elem_of_app, list_elem_of_singleton.
    split; (intros [? | ?]; [by left | by right]).
Qed.

(** X1. A successful [add].  On a reachable object, [add] of an
    identifier that is not registered returns; the identifier is then
    registered, [count] is one more, [find] gives it the new slot
    [len(_roots)], it shares its class with no other identifier, and
    all comparisons between earlier identifiers keep their value. *)
Theorem add_makes_singleton s k :
  reachable s → contains k s = false →
  ∃ s', add k s = (s', Ret tt) ∧
    contains k s' = true ∧
    count s' = (count s + 1)%Z ∧
    snd (find k s') = Ret (length (_roots s)) ∧
    (∀ x, contains x s = true → snd (find_eq k x s') = Ret false) ∧
    (∀ x y, contains x s = true → contains y s = true →
       ∃ v, snd (find_eq x y s) = Ret v ∧ snd (find_eq x y s') = Ret v).
Proof.
  intros Hwf%reachable_wf Hk%not_contains_lookup.
  pose proof (wf_add_fresh k s Hwf Hk) as Hwf'.
  rewrite (add_fresh _ _ Hk) in Hwf'. simpl in Hwf'.
  eexists. split; [by apply add_fresh |].
  set (s' := mkEC _ _ _ _ _) in *.
  assert (_identifiers s' !! k = Some (length (_roots s))) as Hk'
    by apply lookup_insert_eq.
  assert (∀ x ix, _identifiers s !! x = Some ix → _identifiers s' !! x = Some ix)
    as Hold.
  { intros x ix Hx. simpl. rewrite lookup_insert_ne; [done | congruence]. }
  assert (∀ j r, root_of (_roots s) j r → root_of (_roots s') j r) as Hroots.
  { intros j r Hj. simpl. apply (root_of_snoc _ (wf_forest _ Hwf)). by left. }
  assert (root_of (_roots s') (length (_roots s)) (length (_roots s))) as Hnew.
  { simpl. apply (root_of_snoc _ (wf_forest _ Hwf)). by right. }
  split; [by eapply contains_true |]. split; [done |]. split; [| split].
  - destruct (find_run s' k _ _ Hwf' Hk' Hnew) as (p' & -> & _). done.
  - intros x [ix Hx]%contains_lookup.
    destruct (wf_slot_root _ _ _ Hwf Hx) as (_ & rx & Hrx).
    destruct (find_eq_run s' k x _ ix _ rx Hwf' Hk' (Hold _ _ Hx) Hnew (Hroots _ _ Hrx))
      as (p' & -> & _).
    simpl. f_equal. apply bool_decide_eq_false_2.
    apply root_of_lt in Hrx as [_ Hlt]. lia.
  - intros x y [ix Hx]%contains_lookup [iy Hy]%contains_lookup.
    destruct (wf_slot_root _ _ _ Hwf Hx) as (_ & rx & Hrx).
    destruct (wf_slot_root _ _ _ Hwf Hy) as (_ & ry & Hry).
    destruct (find_eq_run s x y ix iy rx ry Hwf Hx Hy Hrx Hry) as (? & -> & _).
    destruct (find_eq_run s' x y ix iy rx ry Hwf' (Hold _ _ Hx) (Hold _ _ Hy)
                (Hroots _ _ Hrx) (Hroots _ _ Hry)) as (? & -> & _).
    by eexists.
Qed.

(** X3. [get_node] returns the node built for the identifier.  For a
    registered identifier it returns without changing the object, the
    node it returns carries that identifier, and no other identifier
    gets the same node. *)
Theorem get_node_identity s k :
  reachable s → contains k s = true →
  ∃ i nd, get_node k s = (s, Ret i) ∧
    _nodes s !! i = Some nd ∧ identifier nd = k ∧
    ∀ k', get_node k' s = (s, Ret i) → k' = k.
Proof.
  intros Hwf%reachable_wf [i Hk]%contains_lookup.
  destruct (wf_ids_node _ Hwf _ _ Hk) as (nd & Hnd & Hid).
  exists i, nd. split; [by apply get_node_run |]. do 2 (split; [done |]).
  intros k' [_ Hk']%get_node_inv. by eapply wf_ids_inj.
Qed.

(** X4. Node references are stable.  The node [get_node] returns for an
    identifier is the node it returns after any further call. *)
Theorem node_reference_stable s c k i :
  reachable s →
  get_node k s = (s, Ret i) →
  get_node k (exec c s) = (exec c s, Ret i).
Proof.
  intros Hwf%reachable_wf [_ Hk]%get_node_inv.
  apply get_node_run; [by apply wf_exec | by apply exec_ids_mono].
Qed.

End Registry.

(** * Further properties: edges, counters and sizes *)

Section Bookkeeping.

Implicit Types (p : list nat) (i j r g d : nat) (s : EquivalenceClasses).
Implicit Types (k a b x y z : K) (tr : list call) (c : call).

Lemma exec_edge_mono c s i j :
  wf s → has_edge s i j → has_edge (exec c s) i j.
Proof.
  intros Hwf He. destruct c as [k | k | a b | a b | k | | k]; simpl; try done.
  - by apply has_edge_add.
  - destruct (_identifiers s !! k) as [n |] eqn:Hk;
      [| by rewrite (find_unknown _ _ Hk)].
    destruct (wf_slot_root _ _ _ Hwf Hk) as (_ & r & Hr).
    by destruct (find_run s k n r Hwf Hk Hr) as (p' & -> & _).
  - destruct (_identifiers s !! a) as [ia |] eqn:Ha;
      [| by rewrite union_unknown by (by left)].
    destruct (_identifiers s !! b) as [ib |] eqn:Hb;
      [| by rewrite union_unknown by (by right)].
    destruct (connect_run s a b ia ib Hwf Ha Hb) as (s1 & -> & _ & Hn & _).
    by apply (has_edge_nodes s s1).
  - destruct (_identifiers s !! a) as [ia |] eqn:Ha;
      [| by rewrite connect_unknown by (by left)].
    destruct (_identifiers s !! b) as [ib |] eqn:Hb;
      [| by rewrite connect_unknown by (by right)].
    destruct (connect_run s a b ia ib Hwf Ha Hb)
      as (s1 & _ & Hwf1 & Hn & Hids & ->).
    simpl. apply has_edge_record_edge.
    + eapply wf_slot_node; [done | by rewrite Hids].
    + left. by apply (has_edge_nodes s s1).
  - destruct (_identifiers s !! k) as [n |] eqn:Hk.
    + by rewrite (get_node_run _ _ _ Hwf Hk).
    + by rewrite (get_node_unknown _ _ Hk).
Qed.

(** X10. How a call changes the edges.  After a call on a reachable
    object, the recorded edges are those recorded before, plus, when
    the call is a [connect] of two registered identifiers, the edge
    from the node of the first to the node of the second.  No call
    removes an edge; [add], [find], [union] and [get_node] record
    none. *)
Theorem edges_after_call s c i j :
  reachable s →
  has_edge (exec c s) i j ↔
  has_edge s i j ∨
  ∃ a b, c = Connect a b ∧
         get_node a s = (s, Ret i) ∧ get_node b s = (s, Ret j).
Proof.
  intros Hwf%reachable_wf. split.
  - intros [He | (a & b & -> & Ha & Hb)]%exec_edge; [by left | | done].
    right. exists a, b.
    by rewrite (get_node_run _ _ _ Hwf Ha), (get_node_run _ _ _ Hwf Hb).
  - intros [He | (a & b & -> & [_ Ha]%get_node_inv & [_ Hb]%get_node_inv)];
      [by apply exec_edge_mono |].
    simpl.
    destruct (connect_run s a b i j Hwf Ha Hb) as (s1 & _ & Hwf1 & Hn & Hids & ->).
    simpl. apply has_edge_record_edge; [| by right].
    eapply wf_slot_node; [done | by rewrite Hids].
Qed.

Lemma with_nodes_id s : with_nodes (_nodes s) s = s.
Proof. by destruct s. Qed.

Lemma get_node_frame k s : fst (get_node k s) = s.
Proof.
  unfold get_node. destruct (negb (contains k s)); [done |].
  unfold bind, identifiers_get, nodes_get.
  destruct (_identifiers s !! k) as [i |]; [| done].
  by destruct (_nodes s !! i).
Qed.

Lemma node_update_frame f i s :
  ∃ nodes, fst (node_update f i s) = with_nodes nodes s.
Proof.
  unfold node_update. destruct (_nodes s !! i); [by eexists |].
  exists (_nodes s). by rewrite with_nodes_id.
Qed.

(** After its [union], [connect] touches the nodes only. *)
Lemma connect_after_union s a b :
  ∃ nodes, fst (connect a b s) = with_nodes nodes (fst (union a b s)).
Proof.
  assert (∀ u, ∃ nodes, u = with_nodes nodes u) as Hid
    by (intros u; exists (_nodes u); by rewrite with_nodes_id).
  unfold connect. unfold bind at 1.
  destruct (union a b s) as [u [[] | e |]]; simpl; [| done | done].
  unfold bind at 1. pose proof (get_node_frame a u) as Hfa.
  destruct (get_node a u) as [u1 [ia | e |]]; simpl in Hfa; subst u1;
    [| done | done].
  unfold bind at 1. pose proof (get_node_frame b u) as Hfb.
  destruct (get_node b u) as [u1 [ib | e |]]; simpl in Hfb; subst u1;
    [| done | done].
  unfold bind at 1.
  destruct (node_update_frame (add_destination ib) ia u) as [n1 Hn1].
  destruct (node_update (add_destination ib) ia u) as [u1 [[] | e |]];
    simpl in Hn1; subst u1; [| by eexists | by eexists].
  destruct (node_update_frame (add_source ia) ib (with_nodes n1 u)) as [n2 Hn2].
  rewrite Hn2. by eexists.
Qed.

(** X11. [connect] does to the forest what [union] does.  On any object,
    the parent array, the sizes, the counter and the identifier index
    after [connect a b] are those after [union a b]; whatever else
    [connect] does, it does to the nodes. *)
Theorem connect_forest_is_union s a b :
  _roots (fst (connect a b s)) = _roots (fst (union a b s)) ∧
  _sizes (fst (connect a b s)) = _sizes (fst (union a b s)) ∧
  _count (fst (connect a b s)) = _count (fst (union a b s)) ∧
  _identifiers (fst (connect a b s)) = _identifiers (fst (union a b s)).
Proof. destruct (connect_after_union s a b) as [nodes ->]. done. Qed.

Lemma record_edge_idemp i j (nodes : list Node) :
  record_edge i j (record_edge i j nodes) = record_edge i j nodes.
Proof.
  apply list_eq. intros x. rewrite !record_edge_lookup.
  destruct (nodes !! x) as [[id ds ss] |]; simpl; [| done].
  do 2 f_equal.
  - destruct (decide (x = i)); [| by rewrite !(left_id_L ∅ (∪))].
    by rewrite (assoc_L (∪)), (idemp_L (∪)).
  - destruct (decide (x = j)); [| by rewrite !(left_id_L ∅ (∪))].
    by rewrite (assoc_L (∪)), (idemp_L (∪)).
Qed.

(** X12. Recording an edge twice.  A second [connect a b] right after
    the first returns and changes neither the nodes nor [count]. *)
Theorem connect_twice s a b :
  reachable s → contains a s = true → contains b s = true →
  ∃ s1 s2,
    connect a b s = (s1, Ret tt) ∧ connect a b s1 = (s2, Ret tt) ∧
    _nodes s2 = _nodes s1 ∧ count s2 = count s1.
Proof.
  intros Hwf%reachable_wf [ia Ha]%contains_lookup [ib Hb]%contains_lookup.
  destruct (connect_run s a b ia ib Hwf Ha Hb)
    as (u & Hun & Hwfu & Hnu & Hidsu & Hrun1).
  destruct (union_roots s a b ia ib Hwf Ha Hb) as (u' & f & r & Hun' & _ & Hra & Hrb).
  assert (u' = u) as -> by congruence.
  set (s1 := with_nodes (record_edge ia ib (_nodes u)) u) in *.
  assert (wf s1) as Hwf1.
  { apply wf_record_edge; [done | |]; eapply wf_slot_node; try done;
      by rewrite Hidsu. }
  assert (_identifiers s1 !! a = Some ia) as Ha1 by (simpl; by rewrite Hidsu).
  assert (_identifiers s1 !! b = Some ib) as Hb1 by (simpl; by rewrite Hidsu).
  destruct (connect_run s1 a b ia ib Hwf1 Ha1 Hb1)
    as (v & Hunv & Hwfv & Hnv & Hidsv & Hrun2).
  destruct (union_post s1 a b ia ib r r Hwf1 Ha1 Hb1 Hra Hrb)
    as (v' & ? & ? & Hunv' & _ & _ & _ & _ & _ & Hcount).
  assert (v' = v) as -> by congruence.
  rewrite decide_True in Hcount by done.
  eexists s1, _. split; [done |]. split; [exact Hrun2 |].
  split; [| done]. simpl. rewrite Hnv. simpl. apply record_edge_idemp.
Qed.

End Bookkeeping.

Section Counters.

Implicit Types (p : list nat) (i j r g d : nat) (s : EquivalenceClasses).
Implicit Types (k a b x y z : K) (tr : list call) (c : call).

(** One slot per registered identifier. *)
Lemma run_length tr :
  length (_roots (run tr)) = size (_identifiers (run tr)).
Proof.
  induction tr as [| c tr IH] using rev_ind; [done |].
  pose proof (wf_run tr) as Hwf.
  rewrite run_snoc, (exec_length _ _ Hwf), (exec_identifiers _ _ Hwf).
  destruct c as [k | k | a b | a b | k | | k]; try done.
  destruct (contains k (run tr)) eqn:Hk; [done |].
  apply not_contains_lookup in Hk.
  by rewrite map_size_insert_None, IH.
Qed.

Lemma num_roots_le p : num_roots p ≤ length p.
Proof.
  unfold num_roots. etrans; [apply length_filter |]. by rewrite length_seq.
Qed.

Lemma num_roots_pos p : forest p → 0 < length p → 0 < num_roots p.
Proof.
  intros Hf Hlen. destruct (Hf 0 Hlen) as (r & Hr).
  assert (r ∈ filter (λ i, p !! i = Some i) (seq 0 (length p))) as Hin.
  { apply list_elem_of_filter. split; [by eapply root_of_is_root |].
    apply elem_of_seq. apply root_of_lt in Hr. lia. }
  unfold num_roots.
  destruct (filter _ _); [by apply elem_of_nil in Hin | simpl; lia].
Qed.

(** X13. The counters agree.  After any sequence of calls the four
    parallel lists have one entry per registered identifier, [count]
    lies between 0 and the number of identifiers, and [count] is 0 only
    when nothing is registered: the decrement in [union] never takes it
    below 1 on a non-empty object. *)
Theorem count_bounds tr :
  length (_roots (run tr)) = size (_identifiers (run tr)) ∧
  length (_nodes (run tr)) = size (_identifiers (run tr)) ∧
  length (_sizes (run tr)) = size (_identifiers (run tr)) ∧
  (0 ≤ count (run tr) ≤ Z.of_nat (size (_identifiers (run tr))))%Z ∧
  (count (run tr) = 0%Z ↔ _identifiers (run tr) = ∅).
Proof.
  pose proof (wf_run tr) as Hwf. pose proof (run_length tr) as Hlen.
  pose proof (num_roots_le (_roots (run tr))) as Hle.
  unfold count. rewrite (wf_count _ Hwf), (wf_nodes_len _ Hwf), (wf_sizes_len _ Hwf).
  do 3 (split; [done |]). split; [lia |].
  rewrite <- map_size_empty_iff, <- Hlen. split.
  - intros Hz. destruct (length (_roots (run tr))) eqn:Hn; [done |].
    pose proof (num_roots_pos _ (wf_forest _ Hwf)). lia.
  - intros Hz. lia.
Qed.

(** X14. Stored sizes are class sizes.  After any sequence of calls, the
    size stored at a root slot is the number of slots whose root it
    is, and is at least 1. *)
Theorem sizes_are_class_sizes tr r :
  _roots (run tr) !! r = Some r →
  ∃ l, class_members (_roots (run tr)) r l ∧
       _sizes (run tr) !! r = Some (length l) ∧
       1 ≤ length l.
Proof.
  intros Hr. destruct (wf_sizes _ (wf_run tr) r Hr) as (l & [Hnd Hl] & Hz).
  exists l. split; [done |]. split; [done |].
  assert (r ∈ l) as Hin by (by apply Hl, root_of_root).
  destruct l; [by apply elem_of_nil in Hin | simpl; lia].
Qed.

Lemma num_roots_all p :
  (∀ i, i < length p → p !! i = Some i) → num_roots p = length p.
Proof.
  intros Hall. unfold num_roots.
  transitivity (length (seq 0 (length p))); [| apply length_seq]. f_equal.
  assert (Forall (λ i, p !! i = Some i) (seq 0 (length p))) as HF.
  { apply Forall_forall. intros i Hi%elem_of_seq. apply Hall. lia. }
  induction HF as [| i l Hi _ IH]; [done |].
  by rewrite filter_cons_True, IH.
Qed.

(** Without a merging call every slot stays its own parent. *)
Lemma run_all_roots tr :
  forallb (λ c, negb (merges c)) tr = true →
  ∀ i, i < length (_roots (run tr)) → _roots (run tr) !! i = Some i.
Proof.
  induction tr as [| c tr IH] using rev_ind; [simpl; intros _ i Hi; lia |].
  rewrite forallb_app. intros [Htr Hc]%andb_true_iff. simpl in Hc.
  rewrite andb_true_r in Hc. specialize (IH Htr).
  pose proof (wf_run tr) as Hwf. rewrite run_snoc.
  destruct c as [k | k | a b | a b | k | | k]; simpl in *; try done.
  - destruct (_identifiers (run tr) !! k) as [n |] eqn:Hk;
      [by rewrite (add_duplicate _ _ _ Hk) |].
    rewrite (add_fresh _ _ Hk). simpl. intros i Hi.
    rewrite length_app in Hi. simpl in Hi.
    destruct (decide (i = length (_roots (run tr)))) as [-> | Hne].
    + by rewrite lookup_app_r, Nat.sub_diag.
    + rewrite lookup_app_l by lia. apply IH. lia.
  - destruct (_identifiers (run tr) !! k) as [n |] eqn:Hk;
      [| by rewrite (find_unknown _ _ Hk)].
    destruct (wf_slot_root _ _ _ Hwf Hk) as (_ & r & Hr).
    destruct (find_run _ k n r Hwf Hk Hr) as (p' & -> & Hlen & _ & Hroot & _).
    simpl. intros i Hi. eapply root_of_is_root, Hroot, root_of_root, IH. lia.
  - destruct (_identifiers (run tr) !! k) as [n |] eqn:Hk.
    + by rewrite (get_node_run _ _ _ Hwf Hk).
    + by rewrite (get_node_unknown _ _ Hk).
Qed.

(** X15. Singleton classes.  As long as no [union] or [connect] has been
    called, every registered identifier is a class of its own: [count]
    is the number of registered identifiers and [find(x) == find(y)]
    is false for distinct registered [x] and [y]. *)
Theorem singleton_classes tr :
  forallb (λ c, negb (merges c)) tr = true →
  count (run tr) = Z.of_nat (size (_identifiers (run tr))) ∧
  ∀ x y, contains x (run tr) = true → contains y (run tr) = true →
         x ≠ y → snd (find_eq x y (run tr)) = Ret false.
Proof.
  intros Htr. pose proof (run_all_roots tr Htr) as Hall.
  pose proof (wf_run tr) as Hwf. split.
  - unfold count. by rewrite (wf_count _ Hwf), (num_roots_all _ Hall), run_length.
  - intros x y [ix Hx]%contains_lookup [iy Hy]%contains_lookup Hne.
    destruct (wf_slot_root _ _ _ Hwf Hx) as (Hix & _).
    destruct (wf_slot_root _ _ _ Hwf Hy) as (Hiy & _).
    destruct (find_eq_run _ x y ix iy ix iy Hwf Hx Hy) as (p' & -> & _);
      [by apply root_of_root, Hall | by apply root_of_root, Hall |].
    simpl. f_equal. apply bool_decide_eq_false_2. intros ->.
    apply Hne. by eapply wf_ids_inj.
Qed.

End Counters.

Section Tokens.

Implicit Types (p : list nat) (i j r g d : nat) (s : EquivalenceClasses).
Implicit Types (k a b x y z : K) (tr : list call) (c : call).

(** A call that is no [union] or [connect] leaves every slot's root. *)
Lemma exec_roots_no_merge c s j r :
  wf s → merges c = false →
  root_of (_roots s) j r → root_of (_roots (exec c s)) j r.
Proof.
  intros Hwf Hc Hj. destruct c as [k | k | a b | a b | k | | k];
    simpl in *; try done.
  - destruct (_identifiers s !! k) as [n |] eqn:Hk;
      [by rewrite (add_duplicate _ _ _ Hk) |].
    rewrite (add_fresh _ _ Hk). simpl.
    apply (root_of_snoc _ (wf_forest _ Hwf)). by left.
  - destruct (_identifiers s !! k) as [n |] eqn:Hk;
      [| by rewrite (find_unknown _ _ Hk)].
    destruct (wf_slot_root _ _ _ Hwf Hk) as (_ & r' & Hr).
    destruct (find_run s k n r' Hwf Hk Hr) as (p' & -> & _ & _ & Hroot & _).
    by apply Hroot.
  - destruct (_identifiers s !! k) as [n |] eqn:Hk.
    + by rewrite (get_node_run _ _ _ Hwf Hk).
    + by rewrite (get_node_unknown _ _ Hk).
Qed.

(** X16. Class tokens are stable until a merge.  The value [find]
    returns for an identifier is not changed by any call other than
    [union] and [connect]; in particular the path halving of an
    earlier [find] never changes what a later [find] returns. *)
Theorem find_token_stable s c x r :
  reachable s → merges c = false →
  snd (find x s) = Ret r →
  snd (find x (exec c s)) = Ret r.
Proof.
  intros Hwf%reachable_wf Hc Hfind.
  destruct (find_returns_root s x r Hwf Hfind) as (i & Hx & Hr).
  pose proof (wf_exec c s Hwf) as Hwf'.
  pose proof (exec_ids_mono c s _ _ Hwf Hx) as Hx'.
  pose proof (exec_roots_no_merge c s _ _ Hwf Hc Hr) as Hr'.
  by destruct (find_run _ x i r Hwf' Hx' Hr') as (p' & -> & _).
Qed.

End Tokens.

End EquivalenceClasses.

(** * Concrete runs

    The statements above on small objects whose identifiers are
    natural numbers. *)

(** The scenario of the specification: four blocks, edges [1 → 2] and
    [2 → 3], then [4 → 1]. *)
Example scenario_two_classes :
  let s := run (K := nat)
             [Add 1; Add 2; Add 3; Add 4; Connect 1 2; Connect 2 3] in
  _roots s = [0; 0; 0; 3] ∧ _sizes s = [3; 1; 1; 1] ∧ count s = 2%Z ∧
  snd (find_eq 1 3 s) = Ret true ∧ snd (find_eq 4 1 s) = Ret false.
Proof. vm_compute. done. Qed.

Example scenario_one_class :
  let s := run (K := nat)
             [Add 1; Add 2; Add 3; Add 4; Connect 1 2; Connect 2 3;
              Connect 4 1] in
  count s = 1%Z ∧
  snd (find_eq 4 3 s) = Ret true ∧ snd (find_eq 2 4 s) = Ret true.
Proof. vm_compute. done. Qed.

(** A slot two links below its root, and what [find] does to it. *)
Example halving_run :
  let s := run (K := nat)
             [Add 1; Add 2; Add 3; Add 4; Union 1 2; Union 3 4; Union 2 4] in
  _roots s = [0; 0; 0; 2] ∧
  snd (find 4 s) = Ret 0 ∧ _roots (fst (find 4 s)) = [0; 0; 0; 0].
Proof. vm_compute. done. Qed.

Lemma union_merges_witness :
  let s := run (K := nat) [Add 1; Add 2] in
  reachable s ∧ contains 1 s = true ∧ contains 2 s = true ∧
  ∃ s' before,
    union 1 2 s = (s', Ret tt) ∧
    snd (find_eq 1 2 s) = Ret before ∧
    snd (find_eq 1 2 s') = Ret true ∧
    count s' = (if before then count s else count s - 1)%Z.
Proof.
  intros s.
  assert (reachable s) as Hs by (by exists [Add 1; Add 2]).
  split; [exact Hs |]. split; [reflexivity |]. split; [reflexivity |].
  apply (union_merges s 1 2 Hs); reflexivity.
Defined.

Lemma find_halves_path_witness :
  let s := run (K := nat)
             [Add 1; Add 2; Add 3; Add 4; Union 1 2; Union 3 4; Union 2 4] in
  reachable s ∧ _identifiers s !! 4 = Some 3 ∧
  ∃ p' r,
    find 4 s = (with_roots p' s, Ret r) ∧
    root_of (_roots s) 3 r ∧
    root_of p' 3 r ∧
    halved (_roots s) 3 p' ∧
    ∀ x y, contains x s = true → contains y s = true →
      ∃ v, snd (find_eq x y s) = Ret v ∧
           snd (find_eq x y (with_roots p' s)) = Ret v.
Proof.
  intros s.
  assert (reachable s) as Hs
    by (by exists [Add 1; Add 2; Add 3; Add 4; Union 1 2; Union 3 4; Union 2 4]).
  split; [exact Hs |]. split; [reflexivity |].
  apply (find_halves_path s 4 3 Hs). reflexivity.
Defined.

Lemma union_by_size_witness :
  let s := run (K := nat) [Add 1; Add 2; Add 3; Union 1 2] in
  reachable s ∧ snd (find 3 s) = Ret 2 ∧ snd (find 1 s) = Ret 0 ∧ 2 ≠ 0 ∧
  ∃ s' m1 m2,
    class_members (_roots s) 2 m1 ∧ class_members (_roots s) 0 m2 ∧
    _sizes s !! 2 = Some (length m1) ∧ _sizes s !! 0 = Some (length m2) ∧
    union 3 1 s = (s', Ret tt) ∧
    (if decide (length m1 < length m2)
     then _roots s' !! 2 = Some 0 ∧ _roots s' !! 0 = Some 0 ∧
          _sizes s' !! 0 = Some (length m1 + length m2)
     else _roots s' !! 0 = Some 2 ∧ _roots s' !! 2 = Some 2 ∧
          _sizes s' !! 2 = Some (length m1 + length m2)).
Proof.
  intros s.
  assert (reachable s) as Hs by (by exists [Add 1; Add 2; Add 3; Union 1 2]).
  split; [exact Hs |]. split; [reflexivity |]. split; [reflexivity |].
  split; [lia |].
  apply (union_by_size s 3 1 2 0 Hs); [reflexivity | reflexivity | lia].
Defined.

Lemma edge_symmetry_witness :
  let tr : list (call (K := nat)) := [Add 1; Add 2; Connect 1 2] in
  contains 2 (run tr) = true ∧ contains 1 (run tr) = true ∧
  (∃ s' ia ib,
     connect 2 1 (run tr) = (s', Ret tt) ∧
     get_node 2 s' = (s', Ret ia) ∧ get_node 1 s' = (s', Ret ib) ∧
     has_edge s' ia ib ∧ has_back_edge s' ib ia) ∧
  (has_edge (run tr) 1 0 → Connect 2 1 ∈ tr) ∧
  (has_edge (run tr) 0 1 ↔ has_back_edge (run tr) 1 0).
Proof.
  intros tr. destruct (edge_symmetry tr) as (Hconnect & Honly & Hsym).
  split; [reflexivity |]. split; [reflexivity |].
  split; [apply Hconnect; reflexivity |].
  split; [apply (Honly 1 2 0 1); [lia | reflexivity | reflexivity] |].
  apply Hsym.
Defined.

Lemma failure_changes_nothing_witness :
  let s := run (K := nat) [Add 1; Add 2] in
  contains 1 s = true ∧ contains 7 s = false ∧ reachable s ∧
  call_raised (Connect 1 7) s = true ∧
  (∃ e, add 1 s = (s, Raise e)) ∧
  ((∃ e, find 7 s = (s, Raise e)) ∧ (∃ e, get_node 7 s = (s, Raise e))) ∧
  ((∃ e, union 1 7 s = (s, Raise e)) ∧ (∃ e, connect 1 7 s = (s, Raise e))) ∧
  exec (Connect 1 7) s = s.
Proof.
  intros s. destruct (failure_changes_nothing s) as (Hadd & Hone & Htwo & Hany).
  assert (reachable s) as Hs by (by exists [Add 1; Add 2]).
  split; [reflexivity |]. split; [reflexivity |]. split; [exact Hs |].
  split; [reflexivity |].
  split; [apply Hadd; reflexivity |].
  split; [apply Hone; reflexivity |].
  split; [apply Htwo; right; reflexivity |].
  apply (Hany Hs). reflexivity.
Defined.

(** C7, as stated, fails on the code: on an object holding identifier
    [1] only, the duplicate [add 1] and the unknown [get_node 2] raise
    the same class of exception, and the unknown [find 2] raises another
    class than the unknown [get_node 2]. *)
Lemma error_kinds_counterexample :
  let s := run (K := nat) [Add 1] in
  contains 1 s = true ∧ contains 2 s = false ∧
  ¬ ((raised_kind (add 1 s) ≠ raised_kind (find 2 s) ∧
      raised_kind (add 1 s) ≠ raised_kind (union 2 1 s) ∧
      raised_kind (add 1 s) ≠ raised_kind (connect 2 1 s) ∧
      raised_kind (add 1 s) ≠ raised_kind (get_node 2 s)) ∧
     (raised_kind (find 2 s) = raised_kind (union 2 1 s) ∧
      raised_kind (union 2 1 s) = raised_kind (connect 2 1 s) ∧
      raised_kind (connect 2 1 s) = raised_kind (get_node 2 s))).
Proof.
  intros s. split; [reflexivity |]. split; [reflexivity |].
  intros [(_ & _ & _ & Hdiff) _]. apply Hdiff. reflexivity.
Qed.

Lemma error_kinds_witness :
  let s := run (K := nat) [Add 1] in
  contains 1 s = true ∧ contains 2 s = false ∧
  raised_kind (add 1 s) = Some KValueError ∧
  raised_kind (union 2 1 s) = Some KValueError ∧
  raised_kind (union 1 2 s) = Some KValueError ∧
  raised_kind (connect 2 1 s) = Some KValueError ∧
  raised_kind (connect 1 2 s) = Some KValueError ∧
  raised_kind (get_node 2 s) = Some KValueError ∧
  raised_kind (find 2 s) = Some KKeyError.
Proof.
  intros s. split; [reflexivity |]. split; [reflexivity |].
  apply (error_kinds s 1 2 1); reflexivity.
Defined.

Lemma parent_forest_and_termination_witness :
  let tr : list (call (K := nat)) :=
    [Add 1; Add 2; Add 3; Add 4; Union 1 2; Union 3 4; Union 2 4] in
  3 < length (_roots (run tr)) ∧
  ¬ on_cycle (_roots (run tr)) 3 ∧
  ∃ s' r, _find_root 3 (run tr) = (s', Ret r) ∧
          root_of (_roots (run tr)) 3 r ∧
          ∀ fuel, length (_roots (run tr)) ≤ fuel →
                  find_root_loop fuel 3 (run tr) = (s', Ret r).
Proof.
  intros tr.
  destruct (parent_forest_and_termination tr) as (_ & Hcycle & Hterm).
  assert (3 < length (_roots (run tr))) as Hlt by (vm_compute; lia).
  split; [exact Hlt |]. split; [apply Hcycle |]. apply Hterm, Hlt.
Defined.

Lemma connect_self_loop_witness :
  let s := run (K := nat) [Add 1; Add 2; Connect 1 2] in
  reachable s ∧ contains 2 s = true ∧
  ∃ s' ia,
    connect 2 2 s = (s', Ret tt) ∧
    count s' = count s ∧
    (∀ x y, contains x s = true → contains y s = true →
       ∃ v, snd (find_eq x y s) = Ret v ∧ snd (find_eq x y s') = Ret v) ∧
    get_node 2 s' = (s', Ret ia) ∧
    has_edge s' ia ia ∧ has_back_edge s' ia ia.
Proof.
  intros s.
  assert (reachable s) as Hs by (by exists [Add 1; Add 2; Connect 1 2]).
  split; [exact Hs |]. split; [reflexivity |].
  apply (connect_self_loop s 2 Hs). reflexivity.
Defined.

Lemma union_commutes_witness :
  let s := run (K := nat) [Add 1; Add 2; Add 3; Union 1 2] in
  reachable s ∧ contains 1 s = true ∧ contains 3 s = true ∧
  ∃ s1 s2,
    union 1 3 s = (s1, Ret tt) ∧ union 3 1 s = (s2, Ret tt) ∧
    count s1 = count s2 ∧
    ∀ x y, contains x s = true → contains y s = true →
      ∃ v, snd (find_eq x y s1) = Ret v ∧ snd (find_eq x y s2) = Ret v.
Proof.
  intros s.
  assert (reachable s) as Hs by (by exists [Add 1; Add 2; Add 3; Union 1 2]).
  split; [exact Hs |]. split; [reflexivity |]. split; [reflexivity |].
  apply (union_commutes s 1 3 Hs); reflexivity.
Defined.

(** ** Concrete runs of the further properties *)

Lemma classes_never_split_witness :
  let s := run (K := nat) [Add 1; Add 2; Add 3; Connect 1 2] in
  reachable s ∧ snd (find_eq 1 2 s) = Ret true ∧
  snd (find_eq 1 2 (exec (Union 3 1) s)) = Ret true.
Proof.
  intros s.
  assert (reachable s) as Hs by (by exists [Add 1; Add 2; Add 3; Connect 1 2]).
  split; [exact Hs |]. split; [reflexivity |].
  apply (classes_never_split s (Union 3 1) 1 2 Hs). reflexivity.
Defined.

Lemma connect_transitive_witness :
  let s := run (K := nat) [Add 1; Add 2; Add 3; Add 4] in
  reachable s ∧ contains 1 s = true ∧ contains 2 s = true ∧
  contains 3 s = true ∧
  snd (find_eq 1 2 (exec (Connect 2 3) (exec (Connect 1 2) s))) = Ret true ∧
  snd (find_eq 2 3 (exec (Connect 2 3) (exec (Connect 1 2) s))) = Ret true ∧
  snd (find_eq 1 3 (exec (Connect 2 3) (exec (Connect 1 2) s))) = Ret true.
Proof.
  intros s.
  assert (reachable s) as Hs by (by exists [Add 1; Add 2; Add 3; Add 4]).
  split; [exact Hs |]. do 3 (split; [reflexivity |]).
  apply (connect_transitive s 1 2 3 Hs); reflexivity.
Defined.

Lemma union_merges_exactly_witness :
  let s := run (K := nat) [Add 1; Add 2; Add 3; Add 4; Union 1 2; Union 3 4] in
  reachable s ∧ contains 2 s = true ∧ contains 3 s = true ∧
  contains 1 s = true ∧ contains 4 s = true ∧
  ∃ s' xy xa xb ya yb,
    union 2 3 s = (s', Ret tt) ∧
    snd (find_eq 1 4 s) = Ret xy ∧
    snd (find_eq 1 2 s) = Ret xa ∧ snd (find_eq 1 3 s) = Ret xb ∧
    snd (find_eq 4 2 s) = Ret ya ∧ snd (find_eq 4 3 s) = Ret yb ∧
    snd (find_eq 1 4 s') = Ret (xy || (xa && yb) || (xb && ya)).
Proof.
  intros s.
  assert (reachable s) as Hs
    by (by exists [Add 1; Add 2; Add 3; Add 4; Union 1 2; Union 3 4]).
  split; [exact Hs |]. do 4 (split; [reflexivity |]).
  apply (union_merges_exactly s 2 3 1 4 Hs); reflexivity.
Defined.

Lemma union_idempotent_witness :
  let s := run (K := nat) [Add 1; Add 2; Add 3] in
  reachable s ∧ contains 1 s = true ∧ contains 3 s = true ∧
  ∃ s1 s2,
    union 1 3 s = (s1, Ret tt) ∧ union 1 3 s1 = (s2, Ret tt) ∧
    count s2 = count s1 ∧
    ∀ x y, contains x s = true → contains y s = true →
      ∃ v, snd (find_eq x y s1) = Ret v ∧ snd (find_eq x y s2) = Ret v.
Proof.
  intros s.
  assert (reachable s) as Hs by (by exists [Add 1; Add 2; Add 3]).
  split; [exact Hs |]. do 2 (split; [reflexivity |]).
  apply (union_idempotent s 1 3 Hs); reflexivity.
Defined.

Lemma edge_ends_share_class_witness :
  let tr : list (call (K := nat)) := [Add 1; Add 2; Add 3; Connect 3 1] in
  get_node 3 (run tr) = (run tr, Ret 2) ∧
  get_node 1 (run tr) = (run tr, Ret 0) ∧
  has_edge (run tr) 2 0 ∧
  snd (find_eq 3 1 (run tr)) = Ret true.
Proof.
  intros tr.
  assert (has_edge (run tr) 2 0) as He.
  { eexists. split; [reflexivity |].
    apply (bool_decide_unpack _). vm_compute. exact I. }
  split; [reflexivity |]. split; [reflexivity |]. split; [exact He |].
  apply (edge_ends_share_class tr 3 1 2 0); [reflexivity | reflexivity | exact He].
Defined.

Lemma add_makes_singleton_witness :
  let s := run (K := nat) [Add 1; Add 2; Union 1 2] in
  reachable s ∧ contains 5 s = false ∧
  ∃ s', add 5 s = (s', Ret tt) ∧
    contains 5 s' = true ∧
    count s' = (count s + 1)%Z ∧
    snd (find 5 s') = Ret (length (_roots s)) ∧
    (∀ x, contains x s = true → snd (find_eq 5 x s') = Ret false) ∧
    (∀ x y, contains x s = true → contains y s = true →
       ∃ v, snd (find_eq x y s) = Ret v ∧ snd (find_eq x y s') = Ret v).
Proof.
  intros s.
  assert (reachable s) as Hs by (by exists [Add 1; Add 2; Union 1 2]).
  split; [exact Hs |]. split; [reflexivity |].
  apply (add_makes_singleton s 5 Hs). reflexivity.
Defined.

Lemma get_node_identity_witness :
  let s := run (K := nat) [Add 7; Add 8] in
  reachable s ∧ contains 8 s = true ∧
  ∃ i nd, get_node 8 s = (s, Ret i) ∧
    _nodes s !! i = Some nd ∧ identifier nd = 8 ∧
    ∀ k', get_node k' s = (s, Ret i) → k' = 8.
Proof.
  intros s. assert (reachable s) as Hs by (by exists [Add 7; Add 8]).
  split; [exact Hs |]. split; [reflexivity |].
  apply (get_node_identity s 8 Hs). reflexivity.
Defined.

Lemma node_reference_stable_witness :
  let s := run (K := nat) [Add 7; Add 8] in
  reachable s ∧ get_node 8 s = (s, Ret 1) ∧
  get_node 8 (exec (Connect 8 7) s) = (exec (Connect 8 7) s, Ret 1).
Proof.
  intros s. assert (reachable s) as Hs by (by exists [Add 7; Add 8]).
  split; [exact Hs |]. split; [reflexivity |].
  apply (node_reference_stable s (Connect 8 7) 8 1 Hs). reflexivity.
Defined.

Lemma edges_after_call_witness :
  let s := run (K := nat) [Add 7; Add 8] in
  reachable s ∧
  (has_edge (exec (Connect 8 7) s) 1 0 ↔
   has_edge s 1 0 ∨
   ∃ a b, Connect 8 7 = Connect a b ∧
          get_node a s = (s, Ret 1) ∧ get_node b s = (s, Ret 0)).
Proof.
  intros s. assert (reachable s) as Hs by (by exists [Add 7; Add 8]).
  split; [exact Hs |]. apply (edges_after_call s (Connect 8 7) 1 0 Hs).
Defined.

Lemma connect_twice_witness :
  let s := run (K := nat) [Add 7; Add 8] in
  reachable s ∧ contains 7 s = true ∧ contains 8 s = true ∧
  ∃ s1 s2,
    connect 7 8 s = (s1, Ret tt) ∧ connect 7 8 s1 = (s2, Ret tt) ∧
    _nodes s2 = _nodes s1 ∧ count s2 = count s1.
Proof.
  intros s. assert (reachable s) as Hs by (by exists [Add 7; Add 8]).
  split; [exact Hs |]. do 2 (split; [reflexivity |]).
  apply (connect_twice s 7 8 Hs); reflexivity.
Defined.

Lemma sizes_are_class_sizes_witness :
  let tr : list (call (K := nat)) := [Add 1; Add 2; Add 3; Union 2 3] in
  _roots (run tr) !! 1 = Some 1 ∧
  ∃ l, class_members (_roots (run tr)) 1 l ∧
       _sizes (run tr) !! 1 = Some (length l) ∧
       1 ≤ length l.
Proof.
  intros tr. split; [reflexivity |].
  apply (sizes_are_class_sizes tr 1). reflexivity.
Defined.

Lemma singleton_classes_witness :
  let tr : list (call (K := nat)) := [Add 1; Add 2; Find 1; Add 2; GetNode 3] in
  forallb (λ c, negb (merges c)) tr = true ∧
  count (run tr) = Z.of_nat (size (_identifiers (run tr))) ∧
  ∀ x y, contains x (run tr) = true → contains y (run tr) = true →
         x ≠ y → snd (find_eq x y (run tr)) = Ret false.
Proof.
  intros tr. split; [reflexivity |].
  apply (singleton_classes tr). reflexivity.
Defined.

Lemma find_token_stable_witness :
  let s := run (K := nat)
             [Add 1; Add 2; Add 3; Add 4; Union 1 2; Union 3 4; Union 2 4] in
  reachable s ∧ merges (Find 4) = false ∧ snd (find 3 s) = Ret 0 ∧
  snd (find 3 (exec (Find 4) s)) = Ret 0.
Proof.
  intros s.
  assert (reachable s) as Hs
    by (by exists [Add 1; Add 2; Add 3; Add 4; Union 1 2; Union 3 4; Union 2 4]).
  split; [exact Hs |]. do 2 (split; [reflexivity |]).
  apply (find_token_stable s (Find 4) 3 0 Hs); reflexivity.
Defined.
